(** * SimpleArg: the argument cursor, the dispatch engine and the tokenizer

    A shallow embedding of [simplearg/arguments.h] (class [Arguments],
    class template [Parameter]) and of [simplearg/str2argv.h], followed by
    the properties of the cursor protocol, of the dispatch loop and of the
    tokenizer.

    Conventions of the embedding:
    - [char] memory is one flat [list ascii]; a [char*] is an offset into
      it and a C string is read from an offset up to the first NUL byte;
    - the token array ([char* argv[]]) is a [list nat] of such offsets and
      the cursor's [values_] pointer is an index (a [Z]) into it;
    - [std::string] and [std::string_view] values are [string]s;
    - a reference parameter written by a function (a slot, the handler
      object) is passed in and returned;
    - a nullable pointer is an [option]. *)

From Stdlib Require Import ZArith String Ascii List Lia.
From Stdlib Require Import DecimalString DecimalPos Sorted Floats.SpecFloat.
From stdpp Require Import gmap strings list.
Import ListNotations.
Local Open Scope Z_scope.

(** ** Text: the [std::string_view] operations the code uses *)

Definition NUL : ascii := Ascii.zero.
Definition newline : ascii := "010"%char.
Definition space_char : ascii := " "%char.
Definition eq_char : ascii := "="%char.

Module sv.

Definition empty (s : string) : bool :=
  match s with EmptyString => true | String _ _ => false end.

(** [find(c)]: the index of the first occurrence; [None] is [npos]. *)
Fixpoint find (c : ascii) (s : string) : option nat :=
  match s with
  | EmptyString => None
  | String a r =>
      if Ascii.eqb a c then Some O
      else match find c r with Some n => Some (S n) | None => None end
  end.

(** [substr(0, n)]. *)
Fixpoint take (n : nat) (s : string) : string :=
  match n, s with
  | O, _ => EmptyString
  | S _, EmptyString => EmptyString
  | S k, String a r => String a (take k r)
  end.

(** [remove_prefix(n)], also pointer advance inside one C string. *)
Fixpoint drop (n : nat) (s : string) : string :=
  match n, s with
  | O, _ => s
  | S _, EmptyString => EmptyString
  | S k, String _ r => drop k r
  end.

End sv.

(** [std::strlen]-delimited read of the C string at offset [p]. *)
Fixpoint cstr_of (bytes : list ascii) : string :=
  match bytes with
  | [] => EmptyString
  | c :: r => if Ascii.eqb c NUL then EmptyString else String c (cstr_of r)
  end.

Definition cstr (chars : list ascii) (p : nat) : string :=
  cstr_of (List.skipn p chars).

(** [std::to_string] on integers. *)
Definition to_string (z : Z) : string := NilZero.string_of_int (Z.to_int z).

(** ** The tokenizer: [str2argv] *)

Module str2argv_h.

Inductive state_t := st_space | st_comment | st_start | st_token.
Inductive symbol_t := sy_space | sy_comment | sy_token | sy_eol.

(** The 4x4 table, rows by state, columns in the order
    space, comment, token, eol. *)
Definition transitions (st : state_t) (sy : symbol_t) : state_t :=
  match st, sy with
  | st_space,   sy_space => st_space
  | st_space,   sy_comment => st_comment
  | st_space,   sy_token => st_start
  | st_space,   sy_eol => st_space
  | st_comment, sy_space => st_comment
  | st_comment, sy_comment => st_comment
  | st_comment, sy_token => st_comment
  | st_comment, sy_eol => st_space
  | st_start,   sy_space => st_space
  | st_start,   sy_comment => st_comment
  | st_start,   sy_token => st_token
  | st_start,   sy_eol => st_space
  | st_token,   sy_space => st_space
  | st_token,   sy_comment => st_comment
  | st_token,   sy_token => st_token
  | st_token,   sy_eol => st_space
  end.

(** [chr <= ' '] on [char]: where plain [char] is signed the bytes
    128..255 are negative and compare below the space. *)
Definition le_space (char_signed : bool) (chr : ascii) : bool :=
  let n := nat_of_ascii chr in
  if char_signed && (128 <=? n)%nat then true else (n <=? 32)%nat.

Definition classify (char_signed : bool) (comment chr : ascii) : symbol_t :=
  if Ascii.eqb chr newline then sy_eol
  else if le_space char_signed chr then sy_space
  else if Ascii.eqb chr comment then sy_comment
  else sy_token.

Definition is_token (sy : symbol_t) : bool :=
  match sy with sy_token => true | _ => false end.

Definition is_start (st : state_t) : bool :=
  match st with st_start => true | _ => false end.

(** What the loop leaves in place of a byte. *)
Definition rewritten (char_signed : bool) (comment chr : ascii) : ascii :=
  if is_token (classify char_signed comment chr) then chr else NUL.

(** The [for (auto& chr : str)] loop; [pos] is the offset of [chr], the
    result is the rewritten buffer and the recorded [&chr] offsets. *)
Fixpoint loop (char_signed : bool) (comment : ascii) (state : state_t)
    (pos : nat) (str : list ascii) : list ascii * list nat :=
  match str with
  | [] => ([], [])
  | chr :: rest =>
      let symbol := classify char_signed comment chr in
      let chr' := if is_token symbol then chr else NUL in
      let state' := transitions state symbol in
      let '(rest', result) := loop char_signed comment state' (S pos) rest in
      (chr' :: rest', if is_start state' then pos :: result else result)
  end.

Definition str2argv (char_signed : bool) (str : list ascii) (comment : ascii)
    : list ascii * list nat :=
  loop char_signed comment st_space O str.

(** The tokens a caller reads back through the returned pointers. *)
Definition tokens (char_signed : bool) (str : string) (comment : ascii)
    : list string :=
  let '(buf, result) :=
    str2argv char_signed (list_ascii_of_string str) comment in
  List.map (cstr buf) result.

(** The reading of "a byte of a comment" used by the specification: from
    a comment marker through the rest of its line, the newline excluded. *)
Fixpoint comment_region (comment : ascii) (inside : bool) (str : list ascii)
    : list bool :=
  match str with
  | [] => []
  | chr :: rest =>
      if Ascii.eqb chr newline then false :: comment_region comment false rest
      else
        let inside' := inside || Ascii.eqb chr comment in
        inside' :: comment_region comment inside' rest
  end.

End str2argv_h.

(** ** [std::from_chars] *)

Inductive errc := errc_none | invalid_argument | result_out_of_range.

(** [ptr] is kept as the number of characters the match consumed. *)
Record from_chars_result := mk_from_chars_result { ptr : nat; ec : errc }.

(** An integral slot type [T]: signedness and width in bits
    ([unsigned] is [{false, 32}], [short] is [{true, 16}]). *)
Record int_type := mk_int_type { is_signed : bool; bits : Z }.

Definition lowest (T : int_type) : Z :=
  if is_signed T then - 2 ^ (bits T - 1) else 0.

Definition max (T : int_type) : Z :=
  if is_signed T then 2 ^ (bits T - 1) - 1 else 2 ^ bits T - 1.

Definition digit_of (c : ascii) : option Z :=
  let n := nat_of_ascii c in
  if (48 <=? n)%nat && (n <=? 57)%nat then Some (Z.of_nat n - 48) else None.

(** The longest run of decimal digits at the head of [s]. *)
Fixpoint digits_prefix (s : string) : list Z :=
  match s with
  | EmptyString => []
  | String c r =>
      match digit_of c with
      | Some d => d :: digits_prefix r
      | None => []
      end
  end.

Definition decimal_value (ds : list Z) : Z :=
  fold_left (fun acc d => 10 * acc + d) ds 0.

Definition starts_with_minus (s : string) : bool :=
  match s with
  | String c _ => Ascii.eqb c "-"%char
  | EmptyString => false
  end.

(** [std::from_chars(first, last, value)] for an integral [value], base 10.
    The function belongs to the C++ standard library, not to this
    repository; this follows [charconv.from.chars]: the pattern is an
    optional minus sign (only when [T] is signed) followed by decimal
    digits, with no leading white space and no plus sign; no match gives
    [invalid_argument]; a match whose value [T] cannot hold gives
    [result_out_of_range]; [value] is written only on success. *)
Definition from_chars (T : int_type) (s : string) (value : Z)
    : from_chars_result * Z :=
  let neg := is_signed T && starts_with_minus s in
  let body := if neg then sv.drop 1 s else s in
  let ds := digits_prefix body in
  match ds with
  | [] => (mk_from_chars_result O invalid_argument, value)
  | _ :: _ =>
      let v := if neg then - decimal_value ds else decimal_value ds in
      let p := ((if neg then 1 else 0) + List.length ds)%nat in
      if (lowest T <=? v) && (v <=? max T)
      then (mk_from_chars_result p errc_none, v)
      else (mk_from_chars_result p result_out_of_range, value)
  end.

(** ** The cursor: class [Arguments] *)

(** [count_], [values_] and [errors_] are the members of the class;
    [argv] and [chars] are the caller-owned memory the cursor borrows: the
    token array [values_] points into, and the bytes its entries point at. *)
Record Arguments := mkArguments {
  count_ : Z;
  values_ : Z;
  errors_ : string;
  argv : list nat;
  chars : list ascii
}.

Definition set_cursor (c v : Z) (a : Arguments) : Arguments :=
  mkArguments c v (errors_ a) (argv a) (chars a).

Definition set_errors (e : string) (a : Arguments) : Arguments :=
  mkArguments (count_ a) (values_ a) e (argv a) (chars a).

Definition set_argv (l : list nat) (a : Arguments) : Arguments :=
  mkArguments (count_ a) (values_ a) (errors_ a) l (chars a).

(** [values_[i - values_]], that is the entry of the token array at index
    [i]; a read outside the array (undefined in the source) has no value. *)
Definition argv_at (a : Arguments) (i : Z) : option nat :=
  if i <? 0 then None else argv a !! Z.to_nat i.

(** The C string an entry points at; empty where the entry is undefined. *)
Definition token_at (a : Arguments) (i : Z) : string :=
  match argv_at a i with
  | Some p => cstr (chars a) p
  | None => EmptyString
  end.

(** [Arguments(argc, argv)]. *)
Definition make_arguments (argc : Z) (tokens : list nat) (mem : list ascii)
    : Arguments :=
  mkArguments argc 0 EmptyString tokens mem.

(** [operator bool] and [empty]. *)
Definition has_more (a : Arguments) : bool := 0 <? count_ a.
Definition empty (a : Arguments) : bool := count_ a <=? 0.

(** [operator++]. *)
Definition advance (a : Arguments) : Arguments :=
  set_cursor (count_ a - 1) (values_ a + 1) a.

(** [message(str...)]: enter FAILURE, then append every piece in order. *)
Definition message (strs : list string) (a : Arguments) : Arguments :=
  mkArguments (-1) (values_ a) (fold_left String.append strs (errors_ a))
    (argv a) (chars a).

(** [get(T& value)] for integral [T]. *)
Definition get_int (T : int_type) (value : Z) (a : Arguments)
    : bool * Z * Arguments :=
  if count_ a <=? 0 then (false, value, a)
  else
    let tok := token_at a (values_ a) in
    let '(r, value') := from_chars T tok value in
    match ec r with
    | invalid_argument =>
        (false, value', message ["expects number in place of '"; tok; "'"] a)
    | result_out_of_range =>
        (false, value',
         message ["expects number in range ["; to_string (lowest T); "..";
                  to_string (max T); "] in place of '"; tok; "'"] a)
    | errc_none => (true, value', advance a)
    end.

(** [get(std::string& value)]. *)
Definition get_string (value : string) (a : Arguments)
    : bool * string * Arguments :=
  if count_ a <=? 0 then (false, value, a)
  else (true, token_at a (values_ a), advance a).

(** [get()]: the current token as a view, or the empty view. *)
Definition get (a : Arguments) : string * Arguments :=
  if count_ a <=? 0 then (EmptyString, a)
  else (token_at a (values_ a), advance a).

(** [errors()] and [errors(std::string&& initial)]. *)
Definition errors (a : Arguments) : string := errors_ a.

Definition errors_swap (initial : string) (a : Arguments)
    : string * Arguments :=
  (errors_ a, set_errors initial a).

(** [contains(value)]. *)
Definition contains (value : string) (a : Arguments) : bool :=
  existsb (fun i => String.eqb value (token_at a (values_ a + Z.of_nat i)))
    (List.seq 0 (Z.to_nat (count_ a))).

(** What the cursor does with a [double] does not depend on what a
    [double] is: it is stated for any type of values with any parser that
    reports through [from_chars_result] and returns the value the slot
    holds afterwards. The [double] of the library is [binary64] below. *)
Class FloatParser := {
  double : Type;
  from_chars_double : string -> double -> from_chars_result * double
}.

Section Extraction.

Context {FP : FloatParser}.

(** [get(double& value)]. *)
Definition get_double (value : double) (a : Arguments)
    : bool * double * Arguments :=
  if count_ a <=? 0 then (false, value, a)
  else
    let tok := token_at a (values_ a) in
    let '(r, value') := from_chars_double tok value in
    match ec r with
    | invalid_argument =>
        (false, value',
         message ["expects floating point value in place of '"; tok; "'"] a)
    | result_out_of_range =>
        (false, value',
         message ["expects number in double range in place of '"; tok; "'"] a)
    | errc_none => (true, value', advance a)
    end.

(** A reference argument of [getall]: its static type and current value. *)
Inductive slot :=
| IntSlot (T : int_type) (value : Z)
| DoubleSlot (value : double)
| StringSlot (value : string).

(** Overload resolution of [get(values)] on one slot. *)
Definition get_slot (sl : slot) (a : Arguments) : bool * slot * Arguments :=
  match sl with
  | IntSlot T v => let '(ok, v', a') := get_int T v a in (ok, IntSlot T v', a')
  | DoubleSlot v => let '(ok, v', a') := get_double v a in (ok, DoubleSlot v', a')
  | StringSlot v => let '(ok, v', a') := get_string v a in (ok, StringSlot v', a')
  end.

(** The fold [(get(values) && ...)]: left to right, nothing evaluated
    after the first [false]. *)
Fixpoint get_each (slots : list slot) (a : Arguments)
    : bool * list slot * Arguments :=
  match slots with
  | [] => (true, [], a)
  | sl :: rest =>
      let '(ok, sl', a') := get_slot sl a in
      if ok then
        let '(ok', rest', a'') := get_each rest a' in (ok', sl' :: rest', a'')
      else (false, sl' :: rest, a')
  end.

(** [getall(values...)]. *)
Definition getall (slots : list slot) (a : Arguments)
    : bool * list slot * Arguments :=
  if count_ a <? 0 then (false, slots, a)
  else if count_ a <? Z.of_nat (List.length slots) then
    (false, slots,
     message ["expects "; to_string (Z.of_nat (List.length slots));
              " parameters, got only "; to_string (count_ a)] a)
  else get_each slots a.

End Extraction.

(** ** Saved-split record: [unget] and [revert] *)

(** [std::pair<char**, char*>]: the address of the rewritten entry of the
    token array (its index) and the pointer it held; [None] is [nothing],
    the pair of null pointers. Entries of a token array are never null, so
    a saved pair passes the second test of [revert] whenever it passes the
    first. *)
Definition saved_split : Type := option (Z * nat).

Definition nothing : saved_split := None.

(** [unget(pos)]: step back onto the token just pulled and advance the
    pointer stored in the array by [pos] characters. Where the entry lies
    outside the array (a read the source leaves undefined) nothing is
    saved and nothing is written. *)
Definition unget (pos : nat) (a : Arguments) : saved_split * Arguments :=
  if count_ a <? 0 then (nothing, a)
  else
    let v := values_ a - 1 in
    match argv_at a v with
    | Some p =>
        (Some (v, p),
         mkArguments (count_ a + 1) v (errors_ a)
           (<[Z.to_nat v := (p + pos)%nat]> (argv a)) (chars a))
    | None => (nothing, set_cursor (count_ a + 1) v a)
    end.

(** [revert(v)]: write the saved pointer back into the array. *)
Definition revert (v : saved_split) (a : Arguments) : Arguments :=
  match v with
  | Some (i, p) => set_argv (<[Z.to_nat i := p]> (argv a)) a
  | None => a
  end.

(** ** Alias expansion: [fillaliases] *)

(** The inner [while]: drop the leading spaces of the view. *)
Fixpoint skip_spaces (current : string) : string :=
  match current with
  | EmptyString => EmptyString
  | String c r => if Ascii.eqb c space_char then skip_spaces r else current
  end.

(** The outer [while (!current.empty())]; every turn that does not break
    removes at least one character, so [fuel] counts the characters left. *)
Fixpoint fillaliases_loop {A : Type} (fuel : nat) (current : string)
    (put : string -> A -> A) (acc : A) : A :=
  match fuel with
  | O => acc
  | S fuel' =>
      if sv.empty current then acc
      else
        let current := skip_spaces current in
        match sv.find space_char current with
        | None => put current acc
        | Some space =>
            fillaliases_loop fuel' (sv.drop (S space) current) put
              (put (sv.take space current) acc)
        end
  end.

(** [fillaliases(aliases, put)]; the effect of the callback is threaded
    through [acc]. *)
Definition fillaliases {A : Type} (aliases : option string)
    (put : string -> A -> A) (acc : A) : A :=
  match aliases with
  | None => acc
  | Some s =>
      if sv.empty s then acc else fillaliases_loop (String.length s) s put acc
  end.

(** The words of an alias list as the specification describes them: the
    maximal runs of characters other than the space. *)
Fixpoint alias_words_from (word : string) (s : string) : list string :=
  match s with
  | EmptyString => if sv.empty word then [] else [word]
  | String c r =>
      if Ascii.eqb c space_char
      then (if sv.empty word then [] else [word]) ++ alias_words_from EmptyString r
      else alias_words_from (word +:+ String c EmptyString) r
  end.

Definition alias_words (aliases : option string) : list string :=
  match aliases with
  | None => []
  | Some s => alias_words_from EmptyString s
  end.

(** ** Descriptors (class template [Parameter], here [Parameter_t]) and the
    dispatch engine *)

Section Dispatch.

(** The handler class. *)
Variable Class : Type.

(** The pointer to member function of [Class] taking
    [(std::string_view, Arguments&)] and returning [bool], applied to an
    object: the handler sees the key and the shared cursor, and may change
    both the object and the cursor. *)
Definition dispatcher_type : Type :=
  string -> Class -> Arguments -> bool * Class * Arguments.

Record Parameter_t := mkParameter {
  dispatcher_ : option dispatcher_type;
  name_ : option string;
  description_ : option string;
  aliases_ : option string
}.

(** [operator bool]: the validity predicate. *)
Definition is_valid (p : Parameter_t) : bool :=
  negb (match name_ p with None => true | Some _ => false end
        || match name_ p with Some n => sv.empty n | None => false end
        || match dispatcher_ p with None => true | Some _ => false end).

(** [p.name()] appended to a [std::string]; appending a null pointer is
    undefined in the source and adds nothing here. *)
Definition name_text (p : Parameter_t) : string :=
  match name_ p with Some n => n | None => EmptyString end.

(** The body of the table-building loop for one descriptor. *)
Definition add_parameter (p : Parameter_t) (dispatchers : gmap string dispatcher_type)
    : gmap string dispatcher_type :=
  if negb (is_valid p) then dispatchers
  else
    match name_ p, dispatcher_ p with
    | Some n, Some d =>
        fillaliases (aliases_ p)
          (fun alias m => if sv.empty alias then m else <[alias := d]> m)
          (<[n := d]> dispatchers)
    | _, _ => dispatchers
    end.

Definition build_dispatchers (params : list Parameter_t)
    : gmap string dispatcher_type :=
  fold_left (fun m p => add_parameter p m) params ∅.

(** The [return] statement a call of [parse] leaves through. *)
Inductive parse_exit :=
| exit_empty
| exit_unknown_verb (key : string)
| exit_handler_failed (key : string)
| exit_loop_end.

Definition exit_value (e : parse_exit) : bool :=
  match e with exit_loop_end => true | _ => false end.

(** The lookup key of a token: cut just after the first ['=']. *)
Definition key_of (param : string) : string :=
  match sv.find eq_char param with
  | Some eq => sv.take (S eq) param
  | None => param
  end.

(** The unknown-verb report. *)
Definition unknown_verb (param : string) (params : list Parameter_t)
    (a : Arguments) : Arguments :=
  fold_left (fun a p => message [" "; name_text p] a) params
    (message ["Unknown verb '"; param; "' expected one of:"] a).

(** The body of the token loop; [None] in the first component means the
    loop goes on. *)
Definition parse_body (dispatchers : gmap string dispatcher_type)
    (params : list Parameter_t) (obj : Class) (param : string) (a : Arguments)
    : option parse_exit * Class * Arguments :=
  let eq := sv.find eq_char param in
  let param := key_of param in
  match (dispatchers !! param : option dispatcher_type) with
  | None => (Some (exit_unknown_verb param), obj, unknown_verb param params a)
  | Some d =>
      let '(saved, a1) :=
        match eq with
        | Some n => unget (S n) a
        | None => (nothing, a)
        end in
      let '(ok, obj', a2) := (d param obj a1 : bool * Class * Arguments) in
      if ok then (None, obj', revert saved a2)
      else (Some (exit_handler_failed param), obj', revert saved a2)
  end.

(** [for (param = get(); count_ >= 0 && !param.empty(); param = get())].
    The loop need not end (a handler may leave the cursor where it was),
    hence the [fuel]; [None] is "still running". *)
Fixpoint parse_loop (fuel : nat) (dispatchers : gmap string dispatcher_type)
    (params : list Parameter_t) (obj : Class) (a : Arguments)
    : option (parse_exit * Class * Arguments) :=
  match fuel with
  | O => None
  | S fuel' =>
      let '(param, a1) := get a in
      if (0 <=? count_ a1) && negb (sv.empty param) then
        match parse_body dispatchers params obj param a1 with
        | (Some e, obj', a2) => Some (e, obj', a2)
        | (None, obj', a2) => parse_loop fuel' dispatchers params obj' a2
        end
      else Some (exit_loop_end, obj, a1)
  end.

Definition parse_run (fuel : nat) (obj : Class) (params : list Parameter_t)
    (a : Arguments) : option (parse_exit * Class * Arguments) :=
  if count_ a <=? 0 then Some (exit_empty, obj, a)
  else parse_loop fuel (build_dispatchers params) params obj a.

(** [parse(obj, params)]. *)
Definition parse (fuel : nat) (obj : Class) (params : list Parameter_t)
    (a : Arguments) : option (bool * Class * Arguments) :=
  match parse_run fuel obj params a with
  | Some (e, obj', a') => Some (exit_value e, obj', a')
  | None => None
  end.

End Dispatch.

Arguments mkParameter {Class}.
Arguments dispatcher_ {Class}.
Arguments name_ {Class}.
Arguments description_ {Class}.
Arguments aliases_ {Class}.
Arguments is_valid {Class}.
Arguments name_text {Class}.
Arguments add_parameter {Class}.
Arguments build_dispatchers {Class}.
Arguments unknown_verb {Class}.
Arguments parse_body {Class}.
Arguments parse_loop {Class}.
Arguments parse_run {Class}.
Arguments parse {Class}.

(** ** Vocabulary of the statements *)

(** The cursor after [n] successful extractions. *)
Definition advance_by (n : nat) (a : Arguments) : Arguments :=
  set_cursor (count_ a - Z.of_nat n) (values_ a + Z.of_nat n) a.

(** The decimal digit characters of a list of digit values. *)
Definition digit_char (d : Z) : ascii :=
  match d with
  | 1 => "1" | 2 => "2" | 3 => "3" | 4 => "4" | 5 => "5"
  | 6 => "6" | 7 => "7" | 8 => "8" | 9 => "9" | _ => "0"
  end%char.

Fixpoint string_of_digits (ds : list Z) : string :=
  match ds with
  | [] => EmptyString
  | d :: r => String (digit_char d) (string_of_digits r)
  end.

Definition is_digit (d : Z) : Prop := 0 <= d <= 9.

(** The digit values of a decimal numeral, most significant first. *)
Fixpoint uint_digits (d : Decimal.uint) : list Z :=
  match d with
  | Decimal.Nil => []
  | Decimal.D0 r => 0 :: uint_digits r
  | Decimal.D1 r => 1 :: uint_digits r
  | Decimal.D2 r => 2 :: uint_digits r
  | Decimal.D3 r => 3 :: uint_digits r
  | Decimal.D4 r => 4 :: uint_digits r
  | Decimal.D5 r => 5 :: uint_digits r
  | Decimal.D6 r => 6 :: uint_digits r
  | Decimal.D7 r => 7 :: uint_digits r
  | Decimal.D8 r => 8 :: uint_digits r
  | Decimal.D9 r => 9 :: uint_digits r
  end.

(** [rest] does not go on with a digit. *)
Definition no_leading_digit (rest : string) : Prop :=
  match rest with
  | EmptyString => True
  | String c _ => digit_of c = None
  end.

(** The names of a table, each preceded by one space. *)
Fixpoint listing (names : list string) : string :=
  match names with
  | [] => EmptyString
  | n :: r => " " +:+ n +:+ listing r
  end.

(** The keys one descriptor stands for: its name and its aliases. *)
Definition keys_of {Class : Type} (p : Parameter_t Class) : list string :=
  match name_ p with
  | Some n => n :: alias_words (aliases_ p)
  | None => alias_words (aliases_ p)
  end.

(** Handlers that hand the token array back as they found it; every
    handler written against the public interface of the cursor does. *)
Definition preserves_argv {Class : Type} (d : dispatcher_type Class) : Prop :=
  forall key obj a, argv (snd (d key obj a)) = argv a.



(** ** A test bench: cursors over given tokens, the handlers of the
    repository's test program *)

(** The memory image of an argument vector: every token followed by its
    terminator, and the offsets of the tokens. *)
Fixpoint layout (base : nat) (toks : list string) : list ascii * list nat :=
  match toks with
  | [] => ([], [])
  | t :: r =>
      let '(mem, ptrs) := layout (base + String.length t + 1)%nat r in
      (list_ascii_of_string t ++ NUL :: mem, base :: ptrs)
  end.

Definition arguments_of (toks : list string) : Arguments :=
  let '(mem, ptrs) := layout O toks in
  make_arguments (Z.of_nat (List.length toks)) ptrs mem.

(** A cursor over the output of the tokenizer. *)
Definition arguments_of_line (char_signed : bool) (line : string)
    (comment : ascii) : Arguments :=
  let '(buf, result) :=
    str2argv_h.str2argv char_signed (list_ascii_of_string line) comment in
  make_arguments (Z.of_nat (List.length result)) result buf.

(** A stand-in for [double] used to run examples only: whole-number
    literals, read like a signed integer without range limit. *)
Definition from_chars_whole (s : string) (value : Z)
    : from_chars_result * Z :=
  let neg := starts_with_minus s in
  let ds := digits_prefix (if neg then sv.drop 1 s else s) in
  match ds with
  | [] => (mk_from_chars_result O invalid_argument, value)
  | _ :: _ =>
      (mk_from_chars_result ((if neg then 1 else 0) + List.length ds)%nat errc_none,
       if neg then - decimal_value ds else decimal_value ds)
  end.

#[global] Instance whole_double : FloatParser :=
  {| double := Z; from_chars_double := from_chars_whole |}.

Definition unsigned : int_type := mk_int_type false 32.
Definition short : int_type := mk_int_type true 16.

(** [struct Test] of the test program. *)
Record Test := mkTest { Test_u : Z; Test_i : Z; Test_s : string }.

(** [Test::foo]: [getall(u, s, i)]. *)
Definition Test_foo : dispatcher_type Test := fun name self args =>
  let '(_, args) := errors_swap (name +:+ " ") args in
  match getall [IntSlot unsigned (Test_u self); StringSlot (Test_s self);
                     IntSlot short (Test_i self)] args with
  | (ok, [IntSlot _ u'; StringSlot s'; IntSlot _ i'], args) =>
      (ok, mkTest u' i' s', args)
  | (ok, _, args) => (ok, self, args)
  end.

(** [Test::option]: [getall(s)]. *)
Definition Test_option : dispatcher_type Test := fun name self args =>
  let '(_, args) := errors_swap (name +:+ " ") args in
  match getall [StringSlot (Test_s self)] args with
  | (ok, [StringSlot s'], args) => (ok, mkTest (Test_u self) (Test_i self) s', args)
  | (ok, _, args) => (ok, self, args)
  end.

(** [Test::bar]: [getall(u, s)]. *)
Definition Test_bar : dispatcher_type Test := fun name self args =>
  let '(_, args) := errors_swap (name +:+ " ") args in
  match getall [IntSlot unsigned (Test_u self); StringSlot (Test_s self)] args with
  | (ok, [IntSlot _ u'; StringSlot s'], args) => (ok, mkTest u' (Test_i self) s', args)
  | (ok, _, args) => (ok, self, args)
  end.

(** [Test::dash], [Test::ddsh] and [Test::help] only print. *)
Definition Test_dash : dispatcher_type Test := fun name self args =>
  (true, self, args).

Definition Test_params : list (Parameter_t Test) :=
  [ mkParameter (Some Test_option) (Some "--option=")
      (Some "a parameter with one option") (Some "");
    mkParameter (Some Test_foo) (Some "foo") (Some "a foo parameter") (Some "f");
    mkParameter (Some Test_bar) (Some "bar") (Some "a bar parameter")
      (Some "b ba bbar");
    mkParameter (Some Test_dash) (Some "-") (Some "a dash parameter") (Some "");
    mkParameter (Some Test_dash) (Some "--") (Some "a double dash parameter")
      (Some "");
    mkParameter (Some Test_dash) (Some "help") (Some "prints this help")
      (Some "--help -h -?") ].

(** A handler that reads a number and does not look at the outcome. *)
Definition careless : dispatcher_type Test := fun name self args =>
  let '(_, u', args) := get_int unsigned (Test_u self) args in
  (true, mkTest u' (Test_i self) (Test_s self), args).

Definition new_Test : Test := mkTest 0 0 EmptyString.

(** The table of the unknown-verb scenario, names "a" and "b", and the
    same table with a descriptor without dispatcher in between. *)
Definition verb_a : Parameter_t Test :=
  mkParameter (Some Test_dash) (Some "a") (Some "verb a") (Some "").



Definition verb_ghost : Parameter_t Test :=
  mkParameter None (Some "ghost") (Some "no dispatcher") (Some "g").

(** The line of the tokenizer scenario: "run  --flag=1 # comment", a
    newline, "next". *)
Definition sample_line : string :=
  "run  --flag=1 # comment" +:+ String newline "next".

(** ** [std::from_chars] on [double] *)

(** [double] as IEEE 754 binary64: 53 bits of precision, exponents up to
    1024, in the integer representation of the standard library. *)
Definition binary64_prec : Z := 53.
Definition binary64_emax : Z := 1024.

(** The binary64 value nearest to [M * 10 ^ E] in magnitude, for [M]
    not negative, with sign [neg]; ties go to the even mantissa, values
    too large become an infinity and values too small a zero. *)
Definition round_decimal (neg : bool) (M E : Z) : spec_float :=
  match M with
  | Z.pos m =>
      if 0 <=? E then
        binary_normalize binary64_prec binary64_emax
          (if neg then - (M * 10 ^ E) else M * 10 ^ E) 0 neg
      else
        match 10 ^ (- E) with
        | Z.pos d =>
            SFdiv binary64_prec binary64_emax
              (S754_finite neg m 0) (S754_finite false d 0)
        | _ => S754_nan
        end
  | _ => S754_zero neg
  end.

(** The value [from_chars] stores for the decimal [M * 10 ^ E], when a
    [double] can hold it: a literal that rounds to an infinity, or one that
    is not zero and rounds to zero, is out of range. *)
Definition binary64_of_decimal (neg : bool) (M E : Z) : option spec_float :=
  match round_decimal neg M E with
  | S754_finite sg m e => Some (S754_finite sg m e)
  | S754_zero sg => if M =? 0 then Some (S754_zero sg) else None
  | S754_infinity _ => None
  | S754_nan => None
  end.

Definition lower (c : ascii) : ascii :=
  let n := nat_of_ascii c in
  if (65 <=? n)%nat && (n <=? 90)%nat then ascii_of_nat (n + 32) else c.

(** [s] starts with [pat] (given in lower case), whatever the case. *)
Fixpoint starts_with_ci (pat s : string) : bool :=
  match pat, s with
  | EmptyString, _ => true
  | String _ _, EmptyString => false
  | String p pr, String c r => Ascii.eqb (lower c) p && starts_with_ci pr r
  end.

(** A character of the sequence allowed between the parentheses of a
    NaN: a digit, a letter or an underscore. *)
Definition is_nchar (c : ascii) : bool :=
  let n := nat_of_ascii (lower c) in
  ((48 <=? n)%nat && (n <=? 57)%nat) || ((97 <=? n)%nat && (n <=? 122)%nat)
  || (n =? 95)%nat.

Fixpoint nchar_run (s : string) : nat :=
  match s with
  | EmptyString => O
  | String c r => if is_nchar c then S (nchar_run r) else O
  end.

(** "inf", "infinity", "nan" and "nan(...)" in any case: whether the match
    is a NaN, and its length. *)
Definition scan_infnan (s : string) : option (bool * nat) :=
  if starts_with_ci "infinity" s then Some (false, 8%nat)
  else if starts_with_ci "inf" s then Some (false, 3%nat)
  else if starts_with_ci "nan" s then
    match sv.drop 3 s with
    | String c r =>
        if Ascii.eqb c "("%char then
          match sv.drop (nchar_run r) r with
          | String c' _ =>
              if Ascii.eqb c' ")"%char then Some (true, (5 + nchar_run r)%nat)
              else Some (true, 3%nat)
          | EmptyString => Some (true, 3%nat)
          end
        else Some (true, 3%nat)
    | EmptyString => Some (true, 3%nat)
    end
  else None.

(** The fraction at the head of [s]: a point and the digits after it. The
    result is the digits and the number of characters taken. *)
Definition fraction_part (s : string) : list Z * nat :=
  match s with
  | String c r =>
      if Ascii.eqb c "."%char
      then (digits_prefix r, S (List.length (digits_prefix r)))
      else ([], O)
  | EmptyString => ([], O)
  end.

(** The exponent at the head of [s]: "e" or "E", an optional sign and at
    least one digit; without a digit there is no exponent. The result is
    its value and the number of characters taken. *)
Definition exponent_part (s : string) : option (Z * nat) :=
  match s with
  | String c r =>
      if Ascii.eqb c "e"%char || Ascii.eqb c "E"%char then
        let minus := starts_with_minus r in
        let signed :=
          minus || match r with
                   | String c' _ => Ascii.eqb c' "+"%char
                   | EmptyString => false
                   end in
        let ds := digits_prefix (if signed then sv.drop 1 r else r) in
        match ds with
        | [] => None
        | _ :: _ =>
            Some (if minus then - decimal_value ds else decimal_value ds,
                  ((if signed then 2 else 1) + List.length ds)%nat)
        end
      else None
  | EmptyString => None
  end.

(** [std::from_chars(first, last, value)] for a [double] [value], in the
    default [chars_format::general]. The function belongs to the C++
    standard library; this follows [charconv.from.chars]: the pattern is
    that of [strtod] in the "C" locale without leading white space and
    without a plus sign: an optional minus sign, then either an infinity
    or a NaN, or decimal digits with an optional point among them (at
    least one digit) and an optional exponent. No match gives
    [invalid_argument]; a match whose value a [double] cannot hold gives
    [result_out_of_range]; [value] is written only on success, with the
    nearest [double]. The sign of a NaN is not kept. *)
Definition from_chars_binary64 (s : string) (value : spec_float)
    : from_chars_result * spec_float :=
  let neg := starts_with_minus s in
  let body := if neg then sv.drop 1 s else s in
  let sign_len := if neg then 1%nat else O in
  match scan_infnan body with
  | Some (is_nan, n) =>
      (mk_from_chars_result (sign_len + n) errc_none,
       if is_nan then S754_nan else S754_infinity neg)
  | None =>
      let ids := digits_prefix body in
      let after_int := sv.drop (List.length ids) body in
      let '(fds, frac_len) := fraction_part after_int in
      match ids ++ fds with
      | [] => (mk_from_chars_result O invalid_argument, value)
      | _ :: _ =>
          let '(e, exp_len) :=
            match exponent_part (sv.drop frac_len after_int) with
            | Some r => r
            | None => (0, O)
            end in
          let p := (sign_len + List.length ids + frac_len + exp_len)%nat in
          match binary64_of_decimal neg (decimal_value (ids ++ fds))
                  (e - Z.of_nat (List.length fds)) with
          | Some v => (mk_from_chars_result p errc_none, v)
          | None => (mk_from_chars_result p result_out_of_range, value)
          end
      end
  end.


(** The [double] of the library as a parser of the development. *)
Definition binary64 : FloatParser :=
  {| double := spec_float; from_chars_double := from_chars_binary64 |}.












(** [rest] does not carry the literal on: no further digit, no point
    where the literal has neither point nor exponent, no exponent where
    the literal has none. *)
Definition no_leading_point (rest : string) : Prop :=
  match rest with
  | String c _ => Ascii.eqb c "."%char = false
  | EmptyString => True
  end.




(** ** The pretty-printer: [print] *)

(** The part of a [std::ostream] that [print] touches: the characters
    written so far, the field width of the next insertion, the adjustment
    flag and the fill character. *)
Inductive adjust := adjust_left | adjust_right | adjust_internal.

Record ostream := mk_ostream {
  written : string;
  width_ : nat;
  adjustfield : adjust;
  fill_ : ascii
}.

(** [out.width(n)] and the manipulators [std::left], [std::right]. *)
Definition set_width (n : nat) (out : ostream) : ostream :=
  mk_ostream (written out) n (adjustfield out) (fill_ out).

Definition set_adjust (f : adjust) (out : ostream) : ostream :=
  mk_ostream (written out) (width_ out) f (fill_ out).

Fixpoint padding (n : nat) (c : ascii) : string :=
  match n with
  | O => EmptyString
  | S k => String c (padding k c)
  end.

(** [out << s] for a character sequence (a C string, a [string_view], a
    single character): a formatted insertion of the standard library. The
    sequence is padded with the fill character up to the field width,
    after it when the adjustment is left and before it otherwise, and the
    width is reset to zero. *)
Definition insert_text (s : string) (out : ostream) : ostream :=
  let pad := padding (width_ out - String.length s) (fill_ out) in
  mk_ostream
    (written out +:+
       match adjustfield out with
       | adjust_left => s +:+ pad
       | _ => pad +:+ s
       end)
    O (adjustfield out) (fill_ out).

(** [p.description()] as inserted; a null pointer, undefined in the
    source, adds nothing here. *)
Definition description_text {Class : Type} (p : Parameter_t Class) : string :=
  match description_ p with Some t => t | None => EmptyString end.

(** The first loop of [print]: the widest name, at least the label. *)
Definition print_width {Class : Type} (params : list (Parameter_t Class))
    (alias_label : string) : nat :=
  fold_left (fun width p => Nat.max width (String.length (name_text p)))
    params (String.length alias_label).

(** The body of the second loop of [print] for one descriptor. *)
Definition print_row {Class : Type} (width : nat) (bullet alias_label : string)
    (out : ostream) (p : Parameter_t Class) : ostream :=
  let out := set_width (width + 1) out in
  let out :=
    insert_text (String newline EmptyString)
      (insert_text (description_text p)
         (insert_text bullet
            (insert_text (name_text p) (set_adjust adjust_left out)))) in
  match aliases_ p with
  | None => out
  | Some al =>
      if sv.empty al then out
      else
        let out := set_width (width + 1 + String.length bullet) out in
        insert_text (String newline EmptyString)
          (insert_text al
             (insert_text alias_label (set_adjust adjust_right out)))
  end.

(** [print(out, params, bullet, alias_label)]. *)
Definition print {Class : Type} (out : ostream)
    (params : list (Parameter_t Class)) (bullet alias_label : string)
    : ostream :=
  fold_left (print_row (print_width params alias_label) bullet alias_label)
    params out.

(** The rows of the table as text: the name cell, the bullet, the
    description, and under them the label cell and the aliases. *)
Definition name_cell {Class : Type} (width : nat) (fill : ascii)
    (p : Parameter_t Class) : string :=
  name_text p +:+ padding (width + 1 - String.length (name_text p)) fill.

Definition label_cell (width : nat) (fill : ascii) (bullet alias_label : string)
    : string :=
  padding (width + 1 + String.length bullet - String.length alias_label) fill
    +:+ alias_label.

Definition row_text {Class : Type} (width : nat) (fill : ascii)
    (bullet alias_label : string) (p : Parameter_t Class) : string :=
  name_cell width fill p +:+ bullet +:+ description_text p
    +:+ String newline EmptyString
    +:+ match aliases_ p with
        | None => EmptyString
        | Some al =>
            if sv.empty al then EmptyString
            else label_cell width fill bullet alias_label +:+ al
                   +:+ String newline EmptyString
        end.

Fixpoint rows_text {Class : Type} (width : nat) (fill : ascii)
    (bullet alias_label : string) (params : list (Parameter_t Class))
    : string :=
  match params with
  | [] => EmptyString
  | p :: rest =>
      row_text width fill bullet alias_label p
        +:+ rows_text width fill bullet alias_label rest
  end.

(** ** Further vocabulary *)

(** The cursor stays inside its token array: it never stands before the
    first entry, and the tokens it still counts all lie in the array. *)
Definition in_bounds (a : Arguments) : Prop :=
  0 <= values_ a /\ values_ a + count_ a <= Z.of_nat (List.length (argv a)).

(** [count_] is an [int]: 32 bits, two's complement. *)
Definition c_int : int_type := mk_int_type true 32.

Definition is_int (z : Z) : Prop := lowest c_int <= z <= max c_int.



(** A handler that, on [key], succeeds and hands the cursor back where
    it found it: same count, position and memory. *)
Definition leaves_cursor {Class : Type} (key : string)
    (d : dispatcher_type Class) : Prop :=
  forall obj a,
    fst (fst (d key obj a)) = true /\
    count_ (snd (d key obj a)) = count_ a /\
    values_ (snd (d key obj a)) = values_ a /\
    argv (snd (d key obj a)) = argv a /\
    chars (snd (d key obj a)) = chars a.

(** A command line written out from its words: the words separated by
    one space. *)
Fixpoint join_chars (ws : list string) : list ascii :=
  match ws with
  | [] => []
  | w :: rest =>
      list_ascii_of_string w ++
        match rest with
        | [] => []
        | _ :: _ => space_char :: join_chars rest
        end
  end.

(** All characters of a string satisfy a test. *)
Fixpoint string_forall (f : ascii -> bool) (s : string) : bool :=
  match s with
  | EmptyString => true
  | String c r => f c && string_forall f r
  end.


(** * Properties *)

#[local] Arguments String.append : simpl nomatch.

(** ** Text *)

Lemma append_nil_r (x : string) : x +:+ "" = x.
Proof. induction x as [|c x IH]; simpl; [reflexivity | by rewrite IH]. Qed.

Lemma append_assoc (x y z : string) : (x +:+ y) +:+ z = x +:+ (y +:+ z).
Proof. induction x as [|c x IH]; simpl; [reflexivity | by rewrite IH]. Qed.

Lemma length_append (x y : string) :
  String.length (x +:+ y) = (String.length x + String.length y)%nat.
Proof. induction x as [|c x IH]; simpl; [reflexivity | by rewrite IH]. Qed.

Lemma take_append (x y : string) : sv.take (String.length x) (x +:+ y) = x.
Proof. induction x as [|c x IH]; simpl; [by destruct y | by rewrite IH]. Qed.

Lemma drop_append (x y : string) : sv.drop (String.length x) (x +:+ y) = y.
Proof. induction x as [|c x IH]; simpl; [by destruct y | exact IH]. Qed.

Lemma find_append_absent (c : ascii) (x y : string) :
  sv.find c x = None ->
  sv.find c (x +:+ String c y) = Some (String.length x).
Proof.
  induction x as [|b x IH]; simpl.
  - intros _. by rewrite Ascii.eqb_refl.
  - destruct (Ascii.eqb b c); [discriminate|].
    destruct (sv.find c x); [discriminate|].
    intros _. by rewrite IH.
Qed.

Lemma cstr_of_skipn (bytes : list ascii) (n : nat) :
  (n <= String.length (cstr_of bytes))%nat ->
  cstr_of (List.skipn n bytes) = sv.drop n (cstr_of bytes).
Proof.
  revert bytes. induction n as [|n IH]; intros bytes Hn.
  - reflexivity.
  - destruct bytes as [|b bytes]; simpl in *; [lia|].
    destruct (Ascii.eqb b NUL); simpl in *; [lia|].
    apply IH. lia.
Qed.

(** Advancing a [char*] inside its C string drops a prefix of the string. *)
Lemma cstr_advance (chars : list ascii) (p n : nat) :
  (n <= String.length (cstr chars p))%nat ->
  cstr chars (p + n) = sv.drop n (cstr chars p).
Proof.
  unfold cstr. intros Hn.
  rewrite Nat.add_comm, <- List.skipn_skipn. by apply cstr_of_skipn.
Qed.

(** ** The tokenizer *)

Section Tokenizer.

Import str2argv_h.

Variable char_signed : bool.
Variable comment : ascii.

Lemma loop_buffer (state : state_t) (pos : nat) (str : list ascii) :
  fst (loop char_signed comment state pos str) =
  List.map (rewritten char_signed comment) str.
Proof.
  revert state pos. induction str as [|chr rest IH]; intros state pos.
  - reflexivity.
  - simpl.
    specialize (IH (transitions state (classify char_signed comment chr)) (S pos)).
    destruct (loop char_signed comment _ (S pos) rest) as [rest' result].
    simpl in *. unfold rewritten at 1. by rewrite IH.
Qed.

(** While the marker is a byte the classifier reports as one, the machine
    is in its comment state exactly on the bytes of a comment, and a
    pointer is recorded only on an ordinary byte outside any comment. *)
Lemma loop_result (state : state_t) (inside : bool) (pos : nat)
    (str : list ascii) :
  classify char_signed comment comment = sy_comment ->
  (inside = true <-> state = st_comment) ->
  Forall (fun p => exists k chr,
            p = (pos + k)%nat /\
            comment_region comment inside str !! k = Some false /\
            str !! k = Some chr /\
            classify char_signed comment chr = sy_token)
    (snd (loop char_signed comment state pos str)).
Proof.
  intros Hmarker. revert state inside pos.
  induction str as [|chr rest IH]; intros state inside pos Hinv.
  - constructor.
  - simpl.
    set (symbol := classify char_signed comment chr).
    set (state' := transitions state symbol).
    assert (Hchr : Ascii.eqb chr newline = true /\ symbol = sy_eol \/
                   Ascii.eqb chr newline = false /\ symbol <> sy_eol /\
                   (Ascii.eqb chr comment = true <-> symbol = sy_comment)).
    { subst symbol.
      destruct (Ascii.eqb chr newline) eqn:Enl.
      - left. split; [done|]. unfold classify. by rewrite Enl.
      - right. split; [done|].
        destruct (Ascii.eqb chr comment) eqn:Ecm.
        + apply Ascii.eqb_eq in Ecm. subst chr. by rewrite Hmarker.
        + unfold classify. rewrite Enl, Ecm.
          destruct (le_space char_signed chr); split; try done; split; done. }
    destruct Hchr as [[Enl Hsym]|(Enl & Hsym & Hcm)]; rewrite Enl.
    + specialize (IH state' false (S pos)).
      destruct (loop char_signed comment state' (S pos) rest) as [rest' result].
      simpl in *.
      assert (Hst : state' = st_space)
        by (subst state'; rewrite Hsym; by destruct state).
      rewrite Hst. simpl.
      eapply Forall_impl; [apply IH; by rewrite Hst|].
      intros p (k & c & -> & Hreg & Hlook & Hcls).
      exists (S k), c. split; [lia|]. done.
    + set (inside' := inside || Ascii.eqb chr comment).
      assert (Hinv' : inside' = true <-> state' = st_comment).
      { subst inside' state'.
        destruct symbol eqn:Es; try done.
        - assert (Ascii.eqb chr comment = false) as ->
            by (destruct (Ascii.eqb chr comment); [|done];
                destruct Hcm as [Hcm _]; by specialize (Hcm eq_refl)).
          rewrite orb_false_r, Hinv. destruct state; simpl; split; done.
        - split; [by destruct state|].
          intros _. destruct Hcm as [_ ->]; [by rewrite orb_true_r|done].
        - assert (Ascii.eqb chr comment = false) as ->
            by (destruct (Ascii.eqb chr comment); [|done];
                destruct Hcm as [Hcm _]; by specialize (Hcm eq_refl)).
          rewrite orb_false_r, Hinv. destruct state; simpl; split; done. }
      specialize (IH state' inside' (S pos) Hinv').
      destruct (loop char_signed comment state' (S pos) rest) as [rest' result].
      simpl in *.
      assert (Htail : Forall (fun p => exists k c,
                p = (pos + k)%nat /\
                (inside' :: comment_region comment inside' rest) !! k = Some false /\
                (chr :: rest) !! k = Some c /\
                classify char_signed comment c = sy_token) result).
      { eapply Forall_impl; [exact IH|].
        intros p (k & c & -> & Hreg & Hlook & Hcls).
        exists (S k), c. split; [lia|]. done. }
      destruct (is_start state') eqn:Estart; [|exact Htail].
      constructor; [|exact Htail].
      exists O, chr. split; [lia|].
      assert (state' = st_start) by (by destruct state').
      assert (Hnc : inside' = false).
      { destruct inside'; [|done].
        destruct Hinv' as [Hinv' _]. specialize (Hinv' eq_refl). congruence. }
      rewrite Hnc. repeat split; try done.
      subst state'. fold symbol.
      destruct state, symbol; simpl in *; congruence.
Qed.

End Tokenizer.

(** C7, as amended. [str2argv] overwrites with the terminator exactly the
    bytes it classifies as newline, white space or control, or comment
    marker, and leaves every other byte as it was, the ordinary bytes of a
    comment included. Tokenizing "run  --flag=1 # comment\nnext" yields
    run, --flag=1, next. When the marker is a byte the classifier reports
    as one, no returned pointer lies inside a comment: each points at an
    ordinary byte outside the comments. *)
Theorem str2argv_overwrites_separators
    (char_signed : bool) (comment : ascii) (str : list ascii) :
  fst (str2argv_h.str2argv char_signed str comment) =
    List.map (str2argv_h.rewritten char_signed comment) str /\
  str2argv_h.tokens char_signed sample_line "#" = ["run"; "--flag=1"; "next"] /\
  (str2argv_h.classify char_signed comment comment = str2argv_h.sy_comment ->
   Forall (fun p => exists chr,
             str2argv_h.comment_region comment false str !! p = Some false /\
             str !! p = Some chr /\
             str2argv_h.classify char_signed comment chr = str2argv_h.sy_token)
     (snd (str2argv_h.str2argv char_signed str comment))).
Proof.
  unfold str2argv_h.str2argv. split; [apply loop_buffer|]. split.
  - by destruct char_signed.
  - intros Hmarker.
    eapply Forall_impl; [by apply (loop_result _ _ _ false)|].
    intros p (k & chr & -> & Hreg & Hlook & Hcls). by exists chr.
Qed.

Lemma str2argv_overwrites_separators_witness :
  str2argv_h.classify true "#" "#" = str2argv_h.sy_comment /\
  Forall (fun p => exists chr,
            str2argv_h.comment_region "#" false (list_ascii_of_string sample_line)
              !! p = Some false /\
            list_ascii_of_string sample_line !! p = Some chr /\
            str2argv_h.classify true "#" chr = str2argv_h.sy_token)
    [0; 5; 24]%nat.
Proof.
  split; [reflexivity|].
  apply (str2argv_overwrites_separators true "#"
           (list_ascii_of_string sample_line)).
  reflexivity.
Defined.

(** C7 as stated fails: the byte at offset 16 of the sample line, the "c"
    of the comment, lies between the marker and the newline and is still
    there after the pass. *)
Lemma comment_bytes_not_overwritten :
  ~ (forall i : nat,
       str2argv_h.comment_region "#" false (list_ascii_of_string sample_line) !! i
         = Some true ->
       fst (str2argv_h.str2argv true (list_ascii_of_string sample_line) "#") !! i
         = Some NUL).
Proof.
  intros H. specialize (H 16%nat eq_refl). vm_compute in H. discriminate H.
Qed.

(** ** The cursor *)

Lemma advance_by_0 (a : Arguments) : advance_by 0 a = a.
Proof.
  destruct a as [c v e l m]. unfold advance_by, set_cursor. simpl.
  f_equal; lia.
Qed.

Lemma advance_by_1 (a : Arguments) : advance_by 1 a = advance a.
Proof. reflexivity. Qed.

Lemma advance_by_S (n : nat) (a : Arguments) :
  advance_by n (advance a) = advance_by (S n) a.
Proof.
  destruct a as [c v e l m]. unfold advance_by, advance, set_cursor. simpl.
  f_equal; lia.
Qed.

Lemma advance_advance_by (n : nat) (a : Arguments) :
  advance (advance_by n a) = advance_by (S n) a.
Proof.
  destruct a as [c v e l m]. unfold advance_by, advance, set_cursor. simpl.
  f_equal; lia.
Qed.

Lemma digit_of_digit_char (d : Z) : is_digit d -> digit_of (digit_char d) = Some d.
Proof.
  unfold is_digit. intros Hd.
  assert (d = 0 \/ d = 1 \/ d = 2 \/ d = 3 \/ d = 4 \/
          d = 5 \/ d = 6 \/ d = 7 \/ d = 8 \/ d = 9) as Hcases by lia.
  repeat (destruct Hcases as [-> | Hcases]; [reflexivity|]).
  by subst d.
Qed.

Lemma digit_char_not_minus (d : Z) :
  is_digit d -> Ascii.eqb (digit_char d) "-" = false.
Proof.
  unfold is_digit. intros Hd.
  assert (d = 0 \/ d = 1 \/ d = 2 \/ d = 3 \/ d = 4 \/
          d = 5 \/ d = 6 \/ d = 7 \/ d = 8 \/ d = 9) as Hcases by lia.
  repeat (destruct Hcases as [-> | Hcases]; [reflexivity|]).
  by subst d.
Qed.

Lemma digits_prefix_digits (ds : list Z) (rest : string) :
  Forall is_digit ds -> no_leading_digit rest ->
  digits_prefix (string_of_digits ds +:+ rest) = ds.
Proof.
  intros Hds Hrest. induction Hds as [|d ds Hd Hds IH]; simpl.
  - destruct rest as [|c rest]; simpl in *; [done|by rewrite Hrest].
  - by rewrite digit_of_digit_char, IH.
Qed.

(** [from_chars] on a digit string followed by anything that is not a
    digit: the digits alone decide the outcome. *)
Lemma from_chars_prefix (T : int_type) (neg : bool) (ds : list Z)
    (rest : string) (value : Z) :
  ds <> [] -> Forall is_digit ds -> no_leading_digit rest ->
  (neg = true -> is_signed T = true) ->
  let v := if neg then - decimal_value ds else decimal_value ds in
  lowest T <= v <= max T ->
  from_chars T ((if neg then "-" else "") +:+ string_of_digits ds +:+ rest) value =
    (mk_from_chars_result ((if neg then 1 else 0) + List.length ds) errc_none, v).
Proof.
  intros Hne Hds Hrest Hneg v Hrange. unfold from_chars.
  destruct neg.
  - rewrite (Hneg eq_refl). simpl.
    rewrite digits_prefix_digits by done.
    destruct ds as [|d ds]; [done|].
    fold v.
    destruct (Z.leb_spec (lowest T) v); [|lia].
    destruct (Z.leb_spec v (max T)); [|lia].
    reflexivity.
  - destruct ds as [|d ds]; [done|].
    assert (Hminus : starts_with_minus
              ("" +:+ string_of_digits (d :: ds) +:+ rest) = false).
    { simpl. apply digit_char_not_minus. by inversion Hds. }
    rewrite Hminus, andb_false_r.
    change ("" +:+ string_of_digits (d :: ds) +:+ rest)
      with (string_of_digits (d :: ds) +:+ rest).
    rewrite digits_prefix_digits by done.
    fold v.
    destruct (Z.leb_spec (lowest T) v); [|lia].
    destruct (Z.leb_spec v (max T)); [|lia].
    reflexivity.
Qed.

(** [std::to_string] writes what [std::from_chars] reads back. *)

Lemma string_of_uint_digits (d : Decimal.uint) :
  NilEmpty.string_of_uint d = string_of_digits (uint_digits d).
Proof. induction d; simpl; by f_equal. Qed.

Lemma uint_digits_are_digits (d : Decimal.uint) : Forall is_digit (uint_digits d).
Proof. induction d; simpl; constructor; unfold is_digit; (lia || done). Qed.

Lemma uint_digits_nonempty (d : Decimal.uint) :
  d <> Decimal.Nil -> uint_digits d <> [].
Proof. by destruct d. Qed.

Lemma decimal_value_acc (d : Decimal.uint) (acc : positive) :
  fold_left (fun x y => 10 * x + y) (uint_digits d) (Z.pos acc) =
    Z.pos (Pos.of_uint_acc d acc).
Proof.
  revert acc. induction d; intros acc; simpl; [reflexivity|..];
    rewrite <- IHd; f_equal; lia.
Qed.

Lemma decimal_value_uint (d : Decimal.uint) :
  decimal_value (uint_digits d) = Z.of_uint d.
Proof.
  unfold decimal_value, Z.of_uint.
  induction d; simpl; [reflexivity|exact IHd|..]; apply decimal_value_acc.
Qed.

Lemma to_string_digits (n : Z) :
  exists ds,
    ds <> [] /\ Forall is_digit ds /\
    to_string n = (if n <? 0 then "-" else "") +:+ string_of_digits ds /\
    n = if n <? 0 then - decimal_value ds else decimal_value ds.
Proof.
  unfold to_string. destruct n as [|p|p]; simpl.
  - exists [0]. split_and!; try done. repeat constructor; unfold is_digit; lia.
  - exists (uint_digits (Pos.to_uint p)).
    pose proof (Unsigned.to_uint_nonnil p) as Hnil.
    split_and!.
    + by apply uint_digits_nonempty.
    + apply uint_digits_are_digits.
    + unfold NilZero.string_of_uint. rewrite <- string_of_uint_digits.
      by destruct (Pos.to_uint p).
    + rewrite decimal_value_uint. unfold Z.of_uint.
      by rewrite DecimalPos.Unsigned.of_to.
  - exists (uint_digits (Pos.to_uint p)).
    pose proof (Unsigned.to_uint_nonnil p) as Hnil.
    split_and!.
    + by apply uint_digits_nonempty.
    + apply uint_digits_are_digits.
    + unfold NilZero.string_of_uint. rewrite <- string_of_uint_digits.
      by destruct (Pos.to_uint p).
    + rewrite decimal_value_uint. unfold Z.of_uint.
      by rewrite DecimalPos.Unsigned.of_to.
Qed.

(** X2. A token that starts with the decimal writing of a number the
    slot type holds is read back as that number, whatever follows it
    (short of a further digit): [get] on the integer slot succeeds, stores
    the number and advances by one token. *)
Lemma get_int_reads_to_string (T : int_type) (n v : Z) (rest : string)
    (a : Arguments) :
  0 < count_ a ->
  lowest T <= n <= max T ->
  no_leading_digit rest ->
  token_at a (values_ a) = to_string n +:+ rest ->
  get_int T v a = (true, n, advance a).
Proof.
  intros Hcount Hrange Hrest Htok.
  destruct (to_string_digits n) as (ds & Hne & Hds & Hstr & Hval).
  unfold get_int. destruct (Z.leb_spec (count_ a) 0); [lia|].
  rewrite Htok, Hstr, append_assoc.
  rewrite (from_chars_prefix T (n <? 0) ds rest v); try done.
  - simpl. by rewrite <- Hval.
  - intros Hneg. apply Z.ltb_lt in Hneg.
    unfold lowest in Hrange. destruct (is_signed T); [done|lia].
  - by rewrite <- Hval.
Qed.

(** ** [from_chars] on [double] *)

Ltac digit_cases d Hd :=
  unfold is_digit in Hd;
  let Hcases := fresh "Hcases" in
  assert (d = 0 \/ d = 1 \/ d = 2 \/ d = 3 \/ d = 4 \/
          d = 5 \/ d = 6 \/ d = 7 \/ d = 8 \/ d = 9) as Hcases by lia;
  repeat (destruct Hcases as [-> | Hcases]; [reflexivity|]);
  subst d; reflexivity.



Lemma digit_char_not_point (d : Z) :
  is_digit d -> Ascii.eqb (digit_char d) "." = false.
Proof. intros Hd. digit_cases d Hd. Qed.


Lemma scan_infnan_point (r : string) : scan_infnan (String "." r) = None.
Proof. reflexivity. Qed.




Lemma no_leading_digit_point (r : string) : no_leading_digit (String "." r).
Proof. reflexivity. Qed.

Lemma no_leading_digit_exp (upper : bool) (r : string) :
  no_leading_digit (String (if upper then "E" else "e")%char r).
Proof. by destruct upper. Qed.

Lemma no_leading_point_exp (upper : bool) (r : string) :
  no_leading_point (String (if upper then "E" else "e")%char r).
Proof. by destruct upper. Qed.




(** The parser on sample tokens: a tenth is rounded to the nearest
    [double]; the point and the exponent belong to the number, an
    exponent without digits does not; there is no leading space or plus
    sign, and no hexadecimal; a literal beyond the range of [double], or
    too small for it, is out of range and leaves the value alone. *)
Example from_chars_binary64_samples :
  let x := S754_finite false 1 0 in
  from_chars_binary64 "0.1" x =
    (mk_from_chars_result 3 errc_none, S754_finite false 7205759403792794 (-56)) /\
  from_chars_binary64 "-2.5E-3" x =
    (mk_from_chars_result 7 errc_none, S754_finite true 5764607523034235 (-61)) /\
  from_chars_binary64 "1.5e3x" x =
    (mk_from_chars_result 5 errc_none, S754_finite false 6597069766656000 (-42)) /\
  from_chars_binary64 "12e+" x =
    (mk_from_chars_result 2 errc_none, S754_finite false 6755399441055744 (-49)) /\
  from_chars_binary64 "0x10" x = (mk_from_chars_result 1 errc_none, S754_zero false) /\
  from_chars_binary64 "-inf" x = (mk_from_chars_result 4 errc_none, S754_infinity true) /\
  from_chars_binary64 "NaN(ab_1)" x = (mk_from_chars_result 9 errc_none, S754_nan) /\
  from_chars_binary64 "+1" x = (mk_from_chars_result 0 invalid_argument, x) /\
  from_chars_binary64 " 1" x = (mk_from_chars_result 0 invalid_argument, x) /\
  from_chars_binary64 "." x = (mk_from_chars_result 0 invalid_argument, x) /\
  from_chars_binary64 "abc" x = (mk_from_chars_result 0 invalid_argument, x) /\
  from_chars_binary64 "1e400" x = (mk_from_chars_result 5 result_out_of_range, x) /\
  from_chars_binary64 "1e-400" x = (mk_from_chars_result 6 result_out_of_range, x) /\
  from_chars_binary64 "1.7976931348623157e308" x =
    (mk_from_chars_result 22 errc_none, S754_finite false 9007199254740991 971) /\
  from_chars_binary64 "4.9e-324" x =
    (mk_from_chars_result 8 errc_none, S754_finite false 1 (-1074)).
Proof. intros x. split_and!; vm_compute; reflexivity. Qed.

(** A token whose integer digits are followed by an exponent is read to
    the end of the exponent by a [double] slot: "1e400" starts with the
    integer 1 and yet fails, out of range; "12e1" gives 120, not 12. *)
Example get_double_reads_exponent :
  let x := S754_zero false in
  get_double (FP := binary64) x (arguments_of ["1e400"]) =
    (false, x,
     message ["expects number in double range in place of '"; "1e400"; "'"]
       (arguments_of ["1e400"])) /\
  get_int unsigned 0 (arguments_of ["1e400"]) =
    (true, 1, advance (arguments_of ["1e400"])) /\
  get_double (FP := binary64) x (arguments_of ["12e1"]) =
    (true, S754_finite false 8444249301319680 (-46),
     advance (arguments_of ["12e1"])).
Proof. intros x. split_and!; vm_compute; reflexivity. Qed.








(** ** Integers as [double] *)







Section Cursor.

Context {FP : FloatParser}.

Lemma get_int_empty (T : int_type) (v : Z) (a : Arguments) :
  count_ a <= 0 -> get_int T v a = (false, v, a).
Proof.
  intros H. unfold get_int. by destruct (Z.leb_spec (count_ a) 0); [|lia].
Qed.

Lemma get_double_empty (v : double) (a : Arguments) :
  count_ a <= 0 -> get_double v a = (false, v, a).
Proof.
  intros H. unfold get_double.
  by destruct (Z.leb_spec (count_ a) 0); [|lia].
Qed.

Lemma get_string_empty (v : string) (a : Arguments) :
  count_ a <= 0 -> get_string v a = (false, v, a).
Proof.
  intros H. unfold get_string. by destruct (Z.leb_spec (count_ a) 0); [|lia].
Qed.

Lemma get_empty (a : Arguments) : count_ a <= 0 -> get a = (EmptyString, a).
Proof.
  intros H. unfold get. by destruct (Z.leb_spec (count_ a) 0); [|lia].
Qed.

Lemma getall_failure (slots : list slot) (a : Arguments) :
  count_ a < 0 -> getall slots a = (false, slots, a).
Proof.
  intros H. unfold getall.
  by destruct (Z.ltb_spec (count_ a) 0); [|lia].
Qed.

(** A successful [get] on a slot consumed exactly one token and touched
    nothing else of the cursor. *)
Lemma get_slot_true (sl sl' : slot) (a a' : Arguments) :
  get_slot sl a = (true, sl', a') -> a' = advance a /\ 0 < count_ a.
Proof.
  destruct sl as [T v|v|v]; simpl.
  - unfold get_int. destruct (Z.leb_spec (count_ a) 0); [discriminate|].
    destruct (from_chars T _ v) as [r v'].
    destruct (ec r); intros [= <- <-] || intros [=]; done.
  - unfold get_double. destruct (Z.leb_spec (count_ a) 0); [discriminate|].
    destruct (from_chars_double _ v) as [r v'].
    destruct (ec r); intros [= <- <-] || intros [=]; done.
  - unfold get_string. destruct (Z.leb_spec (count_ a) 0); [discriminate|].
    intros [= <- <-]; done.
Qed.

(** The fold of [getall] slot by slot: [k] slots are filled, each from
    the cursor its predecessors left, and the slots after the [k]-th are
    not touched. *)
Lemma get_each_spec (slots slots' : list slot) (a a' : Arguments) (ok : bool) :
  get_each slots a = (ok, slots', a') ->
  exists k : nat,
    (k <= List.length slots)%nat /\
    List.length slots' = List.length slots /\
    (forall j, (j < k)%nat -> exists sl sl',
        slots !! j = Some sl /\ slots' !! j = Some sl' /\
        get_slot sl (advance_by j a) = (true, sl', advance_by (S j) a)) /\
    (forall j, (k < j)%nat -> slots' !! j = slots !! j) /\
    (ok = true -> k = List.length slots /\ a' = advance_by k a) /\
    (ok = false -> (k < List.length slots)%nat /\ exists sl sl',
        slots !! k = Some sl /\ slots' !! k = Some sl' /\
        get_slot sl (advance_by k a) = (false, sl', a')).
Proof.
  revert slots' a a' ok.
  induction slots as [|sl rest IH]; intros slots' a a' ok Hrun; simpl in Hrun.
  - injection Hrun as <- <- <-. exists O.
    split_and!; try done; try lia.
    intros _. by rewrite advance_by_0.
  - destruct (get_slot sl a) as [[ok1 sl1] a1] eqn:Hfirst.
    destruct ok1.
    + destruct (get_each rest a1) as [[ok2 rest2] a2] eqn:Hrest.
      injection Hrun as <- <- <-.
      apply get_slot_true in Hfirst as Hadv. destruct Hadv as [-> _].
      destruct (IH _ _ _ _ Hrest) as (k & Hk & Hlen & Hbefore & Hafter & Hok & Hko).
      exists (S k). simpl. split_and!.
      * lia.
      * by rewrite Hlen.
      * intros [|j] Hj.
        -- exists sl, sl1. by rewrite advance_by_0, advance_by_1.
        -- destruct (Hbefore j ltac:(lia)) as (x & x' & ? & ? & Hget).
           exists x, x'.
           by rewrite <- (advance_by_S j), <- (advance_by_S (S j)).
      * intros [|j] Hj; [lia|]. simpl. apply Hafter. lia.
      * intros Htrue. destruct (Hok Htrue) as [-> ->].
        split; [done|apply advance_by_S].
      * intros Hfalse. destruct (Hko Hfalse) as [? (x & x' & ? & ? & Hget)].
        split; [lia|]. exists x, x'. by rewrite <- advance_by_S.
    + injection Hrun as <- <- <-. exists O. simpl. split_and!; try done; try lia.
      * intros [|j] Hj; [lia|done].
      * intros _. split; [lia|]. exists sl, sl1. by rewrite advance_by_0.
Qed.

(** C6. With fewer tokens than slots (and no FAILURE), [getall] reports
    "expects N parameters, got only M", enters FAILURE and returns every
    slot as it was, the cursor position unmoved. With at least as many
    tokens as slots it runs [get] on the slots from left to right: some
    [k] slots are filled, slot [j] from the cursor after [j] extractions;
    on success [k] is all of them, on failure slot [k] is the one whose
    [get] failed, the slots after it are untouched and the [k] before it
    stay filled and consumed. *)
Theorem getall_arity_then_left_to_right
    (slots slots' : list slot) (a a' : Arguments) (ok : bool) :
  0 <= count_ a ->
  getall slots a = (ok, slots', a') ->
  (count_ a < Z.of_nat (List.length slots) ->
     ok = false /\ slots' = slots /\
     a' = mkArguments (-1) (values_ a)
            (errors_ a +:+ "expects " +:+ to_string (Z.of_nat (List.length slots))
               +:+ " parameters, got only " +:+ to_string (count_ a))
            (argv a) (chars a)) /\
  (Z.of_nat (List.length slots) <= count_ a ->
     exists k : nat,
       (k <= List.length slots)%nat /\
       List.length slots' = List.length slots /\
       (forall j, (j < k)%nat -> exists sl sl',
           slots !! j = Some sl /\ slots' !! j = Some sl' /\
           get_slot sl (advance_by j a) = (true, sl', advance_by (S j) a)) /\
       (forall j, (k < j)%nat -> slots' !! j = slots !! j) /\
       (ok = true -> k = List.length slots /\ a' = advance_by k a) /\
       (ok = false -> (k < List.length slots)%nat /\ exists sl sl',
           slots !! k = Some sl /\ slots' !! k = Some sl' /\
           get_slot sl (advance_by k a) = (false, sl', a'))).
Proof.
  intros Hcount Hrun. unfold getall in Hrun.
  destruct (Z.ltb_spec (count_ a) 0); [lia|].
  destruct (Z.ltb_spec (count_ a) (Z.of_nat (List.length slots))).
  - split; [|lia]. intros _.
    injection Hrun as <- <- <-. repeat split.
    unfold message. simpl. by rewrite !append_assoc.
  - split; [lia|]. intros _. by apply get_each_spec.
Qed.

(** C1, as amended. [errors(replacement)] hands back the previous text
    and stores the new one; count, position and memory stay as they were.
    A cursor in FAILURE is still in FAILURE afterwards, and every
    extraction still fails there without consuming. *)
Theorem errors_swap_keeps_failure
    (initial : string) (a : Arguments) (T : int_type) (n : Z) (x : double)
    (t : string) (slots : list slot) :
  count_ a < 0 ->
  let a' := snd (errors_swap initial a) in
  fst (errors_swap initial a) = errors_ a /\
  a' = mkArguments (count_ a) (values_ a) initial (argv a) (chars a) /\
  count_ a' < 0 /\
  get_int T n a' = (false, n, a') /\
  get_double x a' = (false, x, a') /\
  get_string t a' = (false, t, a') /\
  get a' = (EmptyString, a') /\
  getall slots a' = (false, slots, a').
Proof.
  intros Hfail a'. subst a'. simpl.
  repeat split; try done.
  - apply get_int_empty. simpl. lia.
  - apply get_double_empty. simpl. lia.
  - apply get_string_empty. simpl. lia.
  - apply get_empty. simpl. lia.
  - by apply getall_failure.
Qed.

(** C2, as amended. On an empty cursor (count at most zero, FAILURE
    included) [get] on an integer, floating-point or text slot and [get()]
    fail and change nothing: slot, count, position and error text are as
    before. In FAILURE [getall] fails and changes nothing. On an exhausted
    cursor (count zero) [getall] with at least one slot fails, but enters
    FAILURE and appends "expects N parameters, got only 0"; with no slot
    it succeeds. *)
Theorem extraction_on_empty_cursor
    (a : Arguments) (T : int_type) (n : Z) (x : double) (t : string)
    (slots : list slot) :
  count_ a <= 0 ->
  get_int T n a = (false, n, a) /\
  get_double x a = (false, x, a) /\
  get_string t a = (false, t, a) /\
  get a = (EmptyString, a) /\
  (count_ a < 0 -> getall slots a = (false, slots, a)) /\
  (count_ a = 0 -> slots <> [] ->
     getall slots a =
       (false, slots,
        mkArguments (-1) (values_ a)
          (errors_ a +:+ "expects " +:+ to_string (Z.of_nat (List.length slots))
             +:+ " parameters, got only 0")
          (argv a) (chars a))) /\
  (count_ a = 0 -> getall [] a = (true, [], a)).
Proof.
  intros Hempty.
  split; [by apply get_int_empty|].
  split; [by apply get_double_empty|].
  split; [by apply get_string_empty|].
  split; [by apply get_empty|].
  split; [apply getall_failure|].
  split.
  - intros Hzero Hslots. unfold getall. rewrite Hzero. simpl.
    destruct slots as [|sl rest]; [done|].
    simpl. unfold message. simpl. by rewrite !append_assoc.
  - intros Hzero. unfold getall. rewrite Hzero. reflexivity.
Qed.

End Cursor.


Lemma getall_arity_then_left_to_right_witness :
  let a := arguments_of ["12"] in
  let slots := [IntSlot unsigned 0; StringSlot ""; IntSlot short 0] in
  0 <= count_ a /\
  getall slots a =
    (false, slots,
     mkArguments (-1) 0 "expects 3 parameters, got only 1" (argv a) (chars a)) /\
  (count_ a < 3 ->
   false = false /\ slots = slots /\
   mkArguments (-1) 0 "expects 3 parameters, got only 1" (argv a) (chars a) =
     mkArguments (-1) (values_ a)
       (errors_ a +:+ "expects " +:+ to_string 3 +:+ " parameters, got only "
          +:+ to_string (count_ a)) (argv a) (chars a)).
Proof.
  intros a slots.
  split; [vm_compute; discriminate|]. split; [reflexivity|].
  apply (getall_arity_then_left_to_right slots slots a _ false);
    [vm_compute; discriminate | reflexivity].
Defined.

(** The other path of C6 on the slots of [Test::foo]: three tokens for
    three slots, the third not a number; the first two slots are filled
    and consumed, the third keeps its value. *)
Example getall_partial_mutation :
  getall [IntSlot unsigned 0; StringSlot ""; IntSlot short 7]
    (arguments_of ["12"; "x"; "oops"]) =
  (false, [IntSlot unsigned 12; StringSlot "x"; IntSlot short 7],
   mkArguments (-1) 2 "expects number in place of 'oops'"
     (argv (arguments_of ["12"; "x"; "oops"]))
     (chars (arguments_of ["12"; "x"; "oops"]))).
Proof. reflexivity. Qed.

Lemma errors_swap_keeps_failure_witness :
  let a := snd (get_int unsigned 0 (arguments_of ["abc"; "def"])) in
  count_ a < 0 /\
  get_string "" (snd (errors_swap "" a)) = (false, "", snd (errors_swap "" a)).
Proof.
  intros a. split; [vm_compute; reflexivity|].
  apply (errors_swap_keeps_failure (FP := whole_double) "" a unsigned 0 0 "" []).
  vm_compute; reflexivity.
Defined.

(** C1 as stated fails: after a failed [get] on "abc" the cursor is in
    FAILURE with both tokens still ahead; draining the errors leaves it in
    FAILURE, and the next extraction neither succeeds nor consumes. *)
Lemma errors_swap_does_not_reset :
  let a := snd (get_int unsigned 0 (arguments_of ["abc"; "def"])) in
  let a' := snd (errors_swap "" a) in
  count_ a < 0 /\
  ~ 0 <= count_ a' /\
  token_at a' (values_ a') = "abc" /\
  get_string "" a' = (false, "", a') /\
  get a' = ("", a').
Proof.
  intros a a'. split; [vm_compute; reflexivity|].
  split; [vm_compute; intros H; by apply H|].
  split; [reflexivity|]. split; reflexivity.
Qed.

Lemma extraction_on_empty_cursor_witness :
  let a := arguments_of [] in
  count_ a <= 0 /\
  get_int unsigned 5 a = (false, 5, a) /\
  get_double (7 : @double whole_double) a = (false, 7, a) /\
  get_string "kept" a = (false, "kept", a) /\
  get a = ("", a).
Proof.
  intros a. split; [vm_compute; discriminate|].
  pose proof (extraction_on_empty_cursor (FP := whole_double) a unsigned 5 7
                "kept" []) as H.
  destruct H as (H1 & H2 & H3 & H4 & _); [vm_compute; discriminate|].
  by split_and!.
Defined.

(** C2 as stated fails for [getall]: on an exhausted cursor (count zero)
    it returns failure, but it enters FAILURE and appends a message. *)
Lemma getall_on_exhausted_cursor_enters_failure :
  let a := arguments_of [] in
  count_ a = 0 /\ errors_ a = "" /\
  getall [StringSlot ""] a =
    (false, [StringSlot ""],
     mkArguments (-1) 0 "expects 1 parameters, got only 0" [] []).
Proof. by split_and!. Qed.


(** ** Alias expansion *)

Lemma alias_words_from_find (s w : string) :
  match sv.find space_char s with
  | None =>
      alias_words_from w s = if sv.empty (w +:+ s) then [] else [w +:+ s]
  | Some n =>
      alias_words_from w s =
        (if sv.empty (w +:+ sv.take n s) then [] else [w +:+ sv.take n s])
        ++ alias_words_from EmptyString (sv.drop (S n) s)
  end.
Proof.
  revert w. induction s as [|c r IH]; intros w; simpl.
  - by rewrite append_nil_r.
  - destruct (Ascii.eqb c space_char) eqn:Ec.
    + by rewrite append_nil_r.
    + specialize (IH (w +:+ String c EmptyString)).
      destruct (sv.find space_char r) as [n|];
        rewrite IH, !append_assoc; reflexivity.
Qed.

Lemma alias_words_skip_spaces (s : string) :
  alias_words_from EmptyString (skip_spaces s) = alias_words_from EmptyString s.
Proof.
  induction s as [|c r IH]; simpl; [reflexivity|].
  destruct (Ascii.eqb c space_char) eqn:Ec; simpl; [exact IH|].
  by rewrite Ec.
Qed.

Lemma length_skip_spaces (s : string) :
  (String.length (skip_spaces s) <= String.length s)%nat.
Proof.
  induction s as [|c r IH]; simpl; [lia|].
  destruct (Ascii.eqb c space_char); simpl; lia.
Qed.

Lemma length_drop (n : nat) (s : string) :
  (String.length (sv.drop n s) <= String.length s)%nat.
Proof.
  revert s. induction n as [|n IH]; intros [|c r]; simpl; try lia.
  specialize (IH r). lia.
Qed.

(** The loop of [fillaliases] hands the callback the words of the list,
    in order, whenever the callback ignores the empty word. *)
Lemma fillaliases_loop_words {A : Type} (put : string -> A -> A)
    (fuel : nat) (s : string) (acc : A) :
  (forall x, put EmptyString x = x) ->
  (String.length s <= fuel)%nat ->
  fillaliases_loop fuel s put acc =
    fold_left (fun x w => put w x) (alias_words_from EmptyString s) acc.
Proof.
  intros Hput. revert s acc.
  induction fuel as [|fuel IH]; intros s acc Hlen.
  - destruct s; simpl in *; [reflexivity|lia].
  - simpl. destruct (sv.empty s) eqn:Es; [by destruct s|].
    rewrite <- (alias_words_skip_spaces s).
    pose proof (length_skip_spaces s) as Hskip.
    pose proof (alias_words_from_find (skip_spaces s) EmptyString) as Hfind.
    destruct (sv.find space_char (skip_spaces s)) as [n|] eqn:Ef.
    + rewrite Hfind.
      change ("" +:+ sv.take n (skip_spaces s)) with (sv.take n (skip_spaces s)).
      rewrite fold_left_app, IH.
      * destruct (sv.take n (skip_spaces s)) eqn:Et; simpl; [by rewrite Hput|done].
      * destruct (skip_spaces s) as [|c r]; [discriminate|].
        simpl in *. pose proof (length_drop n r). lia.
    + rewrite Hfind.
      change ("" +:+ skip_spaces s) with (skip_spaces s).
      destruct (skip_spaces s); simpl; [by rewrite Hput|done].
Qed.

Lemma fillaliases_words {A : Type} (put : string -> A -> A)
    (aliases : option string) (acc : A) :
  (forall x, put EmptyString x = x) ->
  fillaliases aliases put acc =
    fold_left (fun x w => put w x) (alias_words aliases) acc.
Proof.
  intros Hput. destruct aliases as [s|]; simpl; [|reflexivity].
  destruct (sv.empty s) eqn:Es; [by destruct s|].
  by apply fillaliases_loop_words.
Qed.

Lemma alias_words_from_nonempty (s w : string) :
  Forall (fun x => x <> EmptyString) (alias_words_from w s).
Proof.
  revert w. induction s as [|c r IH]; intros w; simpl.
  - destruct w; simpl; by repeat constructor.
  - destruct (Ascii.eqb c space_char); [|apply IH].
    apply Forall_app. split; [|apply IH].
    destruct w; simpl; by repeat constructor.
Qed.

Lemma alias_words_nonempty (aliases : option string) :
  Forall (fun x => x <> EmptyString) (alias_words aliases).
Proof.
  destruct aliases; simpl; [apply alias_words_from_nonempty|constructor].
Qed.

(** ** The dispatch table *)

Section Table.

Context {Class : Type}.

Implicit Types (p q : Parameter_t Class) (params : list (Parameter_t Class)).
Implicit Types (m : gmap string (dispatcher_type Class)).
Implicit Types (d : dispatcher_type Class) (key : string).

Lemma lookup_insert_all m d (ws : list string) key :
  fold_left (fun x w => <[w := d]> x) ws m !! key =
    if decide (key ∈ ws) then Some d else m !! key.
Proof.
  revert m. induction ws as [|w ws IH]; intros m; cbn [fold_left].
  - destruct (decide (key ∈ [])) as [H|H]; [by apply elem_of_nil in H|done].
  - rewrite IH.
    destruct (decide (key ∈ ws)) as [Hin|Hout].
    + rewrite decide_True; [done|by right].
    + destruct (decide (w = key)) as [->|Hne].
      * rewrite decide_True; [|by left]. by rewrite lookup_insert_eq.
      * rewrite decide_False; [by rewrite lookup_insert_ne|].
        intros [->|?]%elem_of_cons; done.
Qed.

Lemma is_valid_true p :
  is_valid p = true ->
  exists n d, name_ p = Some n /\ n <> EmptyString /\ dispatcher_ p = Some d.
Proof.
  unfold is_valid.
  destruct (name_ p) as [n|], (dispatcher_ p) as [d|]; simpl;
    try discriminate; try (by destruct n).
  destruct n; [discriminate|].
  intros _. by eexists _, _.
Qed.

Lemma add_parameter_invalid p m : is_valid p = false -> add_parameter p m = m.
Proof. intros H. unfold add_parameter. by rewrite H. Qed.

(** What a valid descriptor writes: its dispatcher under its name and
    under each of its aliases, and nothing else. *)
Lemma add_parameter_valid p m n d :
  is_valid p = true -> name_ p = Some n -> dispatcher_ p = Some d ->
  add_parameter p m =
    fold_left (fun x w => <[w := d]> x) (alias_words (aliases_ p)) (<[n := d]> m).
Proof.
  intros Hvalid Hn Hd. unfold add_parameter. rewrite Hvalid, Hn, Hd. simpl.
  rewrite fillaliases_words by done.
  generalize (<[n := d]> m). intros m0.
  pose proof (alias_words_nonempty (aliases_ p)) as Hne.
  revert m0. induction Hne as [|w ws Hw Hws IH]; intros m0; simpl; [done|].
  destruct w; [done|]. simpl. apply IH.
Qed.

Lemma add_parameter_lookup p m n d key :
  is_valid p = true -> name_ p = Some n -> dispatcher_ p = Some d ->
  add_parameter p m !! key =
    if decide (key ∈ keys_of p) then Some d else m !! key.
Proof.
  intros Hvalid Hn Hd.
  rewrite (add_parameter_valid p m n d) by done.
  rewrite lookup_insert_all. unfold keys_of. rewrite Hn.
  destruct (decide (key ∈ alias_words (aliases_ p))) as [Hin|Hout].
  - rewrite decide_True; [done|by right].
  - destruct (decide (n = key)) as [->|Hne].
    + rewrite decide_True; [|by left]. by rewrite lookup_insert_eq.
    + rewrite decide_False; [by rewrite lookup_insert_ne|].
      intros [->|?]%elem_of_cons; done.
Qed.

Lemma build_dispatchers_snoc params p :
  build_dispatchers (params ++ [p]) = add_parameter p (build_dispatchers params).
Proof. unfold build_dispatchers. by rewrite fold_left_app. Qed.

(** An entry of the finished table comes from a valid descriptor that
    stands for the key and carries that dispatcher. *)
Lemma build_dispatchers_Some params key d :
  build_dispatchers params !! key = Some d ->
  exists q, q ∈ params /\ is_valid q = true /\ key ∈ keys_of q /\
            dispatcher_ q = Some d.
Proof.
  induction params as [|p params IH] using rev_ind.
  - unfold build_dispatchers. simpl. by rewrite lookup_empty.
  - rewrite build_dispatchers_snoc.
    destruct (is_valid p) eqn:Hvalid.
    + destruct (is_valid_true p Hvalid) as (n & dp & Hn & _ & Hd).
      rewrite (add_parameter_lookup p _ n dp) by done.
      case_decide as Hkey.
      * intros [= <-]. exists p. split; [|done].
        apply elem_of_app. right. by left.
      * intros Hprev. destruct (IH Hprev) as (q & Hq & ?). exists q.
        split; [|done]. apply elem_of_app. by left.
    + rewrite add_parameter_invalid by done.
      intros Hprev. destruct (IH Hprev) as (q & Hq & ?). exists q.
      split; [|done]. apply elem_of_app. by left.
Qed.

(** Every key of every valid descriptor is in the finished table. *)
Lemma build_dispatchers_is_Some params q key :
  q ∈ params -> is_valid q = true -> key ∈ keys_of q ->
  is_Some (build_dispatchers params !! key).
Proof.
  induction params as [|p params IH] using rev_ind.
  - by intros ?%elem_of_nil.
  - intros Hq Hvalid Hkey. rewrite build_dispatchers_snoc.
    apply elem_of_app in Hq as [Hq|Hq].
    + specialize (IH Hq Hvalid Hkey).
      destruct (is_valid p) eqn:Hp.
      * destruct (is_valid_true p Hp) as (n & dp & Hn & _ & Hd).
        rewrite (add_parameter_lookup p _ n dp) by done.
        by case_decide.
      * by rewrite add_parameter_invalid.
    + apply list_elem_of_singleton in Hq as ->.
      destruct (is_valid_true p Hvalid) as (n & dp & Hn & _ & Hd).
      rewrite (add_parameter_lookup p _ n dp) by done.
      by rewrite decide_True.
Qed.

(** C8. An invalid descriptor leaves the table as it was. A valid one has
    a non-empty name and a dispatcher, and maps its name and each word of
    its alias list (every such word is non-empty) to that dispatcher,
    changing no other key. Hence a key is in the finished table exactly
    when a valid descriptor stands for it, and the dispatcher found there
    is that of such a descriptor. *)
Theorem dispatch_table_skips_invalid params p m key :
  (is_valid p = false -> add_parameter p m = m) /\
  (is_valid p = true ->
     exists n d,
       name_ p = Some n /\ n <> EmptyString /\ dispatcher_ p = Some d /\
       add_parameter p m !! n = Some d /\
       (forall w, w ∈ alias_words (aliases_ p) ->
                  w <> EmptyString /\ add_parameter p m !! w = Some d) /\
       (key ∉ keys_of p -> add_parameter p m !! key = m !! key)) /\
  (is_Some (build_dispatchers params !! key) <->
     exists q, q ∈ params /\ is_valid q = true /\ key ∈ keys_of q) /\
  (forall d, build_dispatchers params !! key = Some d ->
     exists q, q ∈ params /\ is_valid q = true /\ key ∈ keys_of q /\
               dispatcher_ q = Some d).
Proof.
  split_and!.
  - apply add_parameter_invalid.
  - intros Hvalid.
    destruct (is_valid_true p Hvalid) as (n & d & Hn & Hne & Hd).
    exists n, d. split_and!; try done.
    + rewrite (add_parameter_lookup p m n d) by done.
      rewrite decide_True; [done|]. unfold keys_of. rewrite Hn. by left.
    + intros w Hw. split.
      * pose proof (alias_words_nonempty (aliases_ p)) as Hall.
        rewrite Forall_forall in Hall. by apply Hall.
      * rewrite (add_parameter_lookup p m n d) by done.
        rewrite decide_True; [done|]. unfold keys_of. rewrite Hn. by right.
    + intros Hkey. rewrite (add_parameter_lookup p m n d) by done.
      by rewrite decide_False.
  - split.
    + intros [d Hd]. destruct (build_dispatchers_Some _ _ _ Hd) as (q & ? & ? & ? & _).
      by exists q.
    + intros (q & ? & ? & ?). by eapply build_dispatchers_is_Some.
  - apply build_dispatchers_Some.
Qed.

End Table.

Lemma dispatch_table_skips_invalid_witness :
  is_valid verb_ghost = false /\
  add_parameter verb_ghost (build_dispatchers Test_params) =
    build_dispatchers Test_params.
Proof.
  split; [reflexivity|].
  apply (dispatch_table_skips_invalid Test_params verb_ghost
           (build_dispatchers Test_params) "g").
  reflexivity.
Defined.

(** The table of the test program: every name and alias is a key. *)
Example Test_params_keys :
  List.map (fun key => bool_decide (is_Some (build_dispatchers Test_params !! key)))
    ["--option="; "foo"; "f"; "bar"; "b"; "ba"; "bbar"; "-"; "--"; "help";
     "--help"; "-h"; "-?"; ""; "--option"; "fo"]
  = [true; true; true; true; true; true; true; true; true; true;
     true; true; true; false; false; false].
Proof. vm_compute. reflexivity. Qed.

(** ** The dispatch engine *)

Section Engine.

Context {Class : Type}.

Implicit Types (p q : Parameter_t Class) (params : list (Parameter_t Class)).
Implicit Types (dispatchers : gmap string (dispatcher_type Class)).
Implicit Types (d : dispatcher_type Class) (key param : string).
Implicit Types (obj : Class) (a : Arguments).



Lemma name_lines params a :
  count_ a = -1 ->
  fold_left (fun x p => message [" "; name_text p] x) params a =
    mkArguments (-1) (values_ a)
      (errors_ a +:+ listing (List.map name_text params)) (argv a) (chars a).
Proof.
  revert a. induction params as [|p params IH]; intros a Hcount; simpl.
  - destruct a as [c v e l m]. simpl in *. subst c. by rewrite append_nil_r.
  - rewrite IH by done. unfold message. simpl. by rewrite !append_assoc.
Qed.

(** The report of an unknown verb, in one piece. *)
Lemma unknown_verb_text key params a :
  unknown_verb key params a =
    mkArguments (-1) (values_ a)
      (errors_ a +:+ "Unknown verb '" +:+ key +:+ "' expected one of:"
         +:+ listing (List.map name_text params))
      (argv a) (chars a).
Proof.
  unfold unknown_verb. rewrite name_lines by done.
  unfold message. simpl. by rewrite !append_assoc.
Qed.

Lemma get_nonempty a : 0 < count_ a -> get a = (token_at a (values_ a), advance a).
Proof.
  intros H. unfold get. by destruct (Z.leb_spec (count_ a) 0); [lia|].
Qed.








End Engine.



(** ** Splitting at ['='] *)

Section Split.

Context {Class : Type}.

Implicit Types (params : list (Parameter_t Class)).
Implicit Types (dispatchers : gmap string (dispatcher_type Class)).
Implicit Types (d : dispatcher_type Class) (key param : string).
Implicit Types (obj : Class) (a : Arguments).

Lemma argv_at_Some a (i : Z) (p : nat) :
  argv_at a i = Some p -> 0 <= i /\ argv a !! Z.to_nat i = Some p.
Proof.
  unfold argv_at. destruct (Z.ltb_spec i 0); [discriminate|]. by split.
Qed.

Lemma find_eq_split (k value : string) :
  sv.find eq_char k = None ->
  sv.find eq_char ((k +:+ "=") +:+ value) = Some (String.length k).
Proof.
  intros Hk. rewrite append_assoc. by apply find_append_absent.
Qed.

Lemma key_of_split (k value : string) :
  sv.find eq_char k = None ->
  key_of ((k +:+ "=") +:+ value) = k +:+ "=".
Proof.
  intros Hk. unfold key_of. rewrite find_eq_split by done.
  replace (S (String.length k)) with (String.length (k +:+ "=")).
  - apply take_append.
  - rewrite length_append. simpl. lia.
Qed.

Lemma revert_idempotent (v : saved_split) a :
  revert v (revert v a) = revert v a.
Proof.
  destruct v as [[i p]|]; [|reflexivity].
  unfold revert, set_argv. simpl. by rewrite list_insert_insert_eq.
Qed.

(** One turn of the loop leaves the token array as it found it, provided
    the handler it calls does. *)
Lemma parse_body_argv dispatchers params obj param a :
  (forall key d, dispatchers !! key = Some d -> preserves_argv d) ->
  argv (snd (parse_body dispatchers params obj param a)) = argv a.
Proof.
  intros Hkeep. unfold parse_body. cbv zeta.
  destruct (dispatchers !! key_of param) as [d|] eqn:Hd.
  - specialize (Hkeep _ _ Hd).
    assert (Hcall : forall saved a1,
      argv (revert saved a1) = argv a ->
      (forall a2, argv a2 = argv a1 -> argv (revert saved a2) = argv a) ->
      argv (snd (let '(ok, obj', a2) := d (key_of param) obj a1 in
                 if ok then (None, obj', revert saved a2)
                 else (Some (exit_handler_failed (key_of param)), obj',
                       revert saved a2))) = argv a).
    { intros saved a1 _ Hback.
      specialize (Hkeep (key_of param) obj a1).
      destruct (d (key_of param) obj a1) as [[ok obj1] a2]. simpl in Hkeep.
      destruct ok; simpl; by apply Hback. }
    destruct (sv.find eq_char param) as [n|].
    + unfold unget. destruct (count_ a <? 0).
      * apply Hcall; [done|]. by intros a2 Ha2.
      * destruct (argv_at a (values_ a - 1)) as [p|] eqn:Hp.
        -- apply argv_at_Some in Hp as [_ Hp].
           assert (Hrestore : forall l,
             l = <[Z.to_nat (values_ a - 1) := (p + S n)%nat]> (argv a) ->
             <[Z.to_nat (values_ a - 1) := p]> l = argv a).
           { intros l ->. rewrite list_insert_insert_eq. by apply list_insert_id. }
           apply Hcall; simpl; [by apply Hrestore|].
           intros a2 Ha2. by apply Hrestore.
        -- apply Hcall; [done|]. by intros a2 Ha2.
    + apply Hcall; [done|]. by intros a2 Ha2.
  - simpl. by rewrite unknown_verb_text.
Qed.

Lemma get_argv a : argv (snd (get a)) = argv a.
Proof. unfold get. by destruct (count_ a <=? 0). Qed.

(** The loop as a whole hands the token array back as it was. *)
Lemma parse_loop_argv fuel dispatchers params obj a e obj' a' :
  (forall key d, dispatchers !! key = Some d -> preserves_argv d) ->
  parse_loop fuel dispatchers params obj a = Some (e, obj', a') ->
  argv a' = argv a.
Proof.
  intros Hkeep. revert obj a.
  induction fuel as [|fuel IH]; intros obj a; simpl; [discriminate|].
  pose proof (get_argv a) as Hget.
  destruct (get a) as [param a1]. simpl in Hget.
  destruct ((0 <=? count_ a1) && negb (sv.empty param)).
  - pose proof (parse_body_argv dispatchers params obj param a1 Hkeep) as Hbody.
    destruct (parse_body dispatchers params obj param a1) as [[[x|] obj1] a2];
      simpl in Hbody.
    + intros [= <- <- <-]. congruence.
    + intros Hrun. apply IH in Hrun. congruence.
  - intros [= <- <- <-]. done.
Qed.

(** C4. Let the current token be [k=value], [k] free of ['='], with the
    key [k=] in the table. The handler bound to the key is called with the
    key and with a cursor standing on the same entry of the token array,
    now pointing just after the ['=']: [get()] on that cursor returns
    [value]. Whatever the handler returns, the turn writes the saved
    pointer back once, so that entry (in an array of the same size) holds
    the pointer to [k=value] again, and a second write-back would change
    nothing; when the handler hands the array back as it found it, the
    array is the original one. A whole [parse] whose handlers do so leaves
    the array as it was, however it ends. *)
Theorem split_serves_remainder_then_restores
    dispatchers params obj a (k value : string) d (p : nat) :
  0 < count_ a ->
  argv_at a (values_ a) = Some p ->
  cstr (chars a) p = (k +:+ "=") +:+ value ->
  sv.find eq_char k = None ->
  dispatchers !! (k +:+ "=") = Some d ->
  let key := k +:+ "=" in
  let saved : saved_split := Some (values_ a, p) in
  let a1 := mkArguments (count_ a) (values_ a) (errors_ a)
              (<[Z.to_nat (values_ a) := (p + String.length key)%nat]> (argv a))
              (chars a) in
  get a = (key +:+ value, advance a) /\
  get a1 = (value, advance a1) /\
  parse_body dispatchers params obj (key +:+ value) (advance a) =
    (let '(ok, obj', a2) := d key obj a1 in
     (if ok then None else Some (exit_handler_failed key), obj',
      revert saved a2)) /\
  (forall a2, List.length (argv a2) = List.length (argv a) ->
              argv_at (revert saved a2) (values_ a) = Some p) /\
  (forall a2, revert saved (revert saved a2) = revert saved a2) /\
  (forall a2, argv a2 = argv a1 -> argv (revert saved a2) = argv a) /\
  (forall fuel obj0 a0 e obj' a',
     (forall key' d', dispatchers !! key' = Some d' -> preserves_argv d') ->
     parse_loop fuel dispatchers params obj0 a0 = Some (e, obj', a') ->
     argv a' = argv a0).
Proof.
  intros Hcount Hp Htok Hk Hd key saved a1. subst key saved.
  pose proof (argv_at_Some _ _ _ Hp) as [Hv Hlook].
  assert (Hlen : String.length (k +:+ "=") = S (String.length k)).
  { rewrite length_append. simpl. lia. }
  assert (Htoken : token_at a (values_ a) = (k +:+ "=") +:+ value).
  { unfold token_at. by rewrite Hp. }
  split_and!.
  - rewrite get_nonempty by done. by rewrite Htoken.
  - rewrite get_nonempty by done. f_equal.
    unfold token_at, argv_at. simpl.
    destruct (Z.ltb_spec (values_ a) 0); [lia|].
    rewrite list_lookup_insert_eq by (by eapply lookup_lt_Some).
    rewrite cstr_advance, Htok.
    + apply drop_append.
    + rewrite Htok, Hlen, !length_append. simpl. lia.
  - unfold parse_body. cbv zeta.
    rewrite (key_of_split k value Hk), (find_eq_split k value Hk).
    rewrite Hd. unfold unget.
    assert ((count_ (advance a) <? 0) = false) as -> by (simpl; lia).
    assert (Hback : values_ (advance a) - 1 = values_ a) by (simpl; lia).
    rewrite Hback.
    assert (argv_at (advance a) (values_ a) = Some p) as -> by exact Hp.
    assert (Hsame : mkArguments (count_ (advance a) + 1) (values_ a)
              (errors_ (advance a))
              (<[Z.to_nat (values_ a) := (p + S (String.length k))%nat]>
                 (argv (advance a))) (chars (advance a)) = a1).
    { subst a1. rewrite Hlen. simpl. f_equal. lia. }
    rewrite Hsame.
    destruct (d (k +:+ "=") obj a1) as [[ok obj1] a2]. by destruct ok.
  - intros a2 Hsize. unfold argv_at. simpl.
    destruct (Z.ltb_spec (values_ a) 0); [lia|].
    apply list_lookup_insert_eq. rewrite Hsize. by eapply lookup_lt_Some.
  - intros a2. apply revert_idempotent.
  - intros a2 Ha2. simpl. rewrite Ha2. subst a1. simpl.
    rewrite list_insert_insert_eq. by apply list_insert_id.
  - intros fuel obj0 a0 e obj' a' Hkeep Hrun. by eapply parse_loop_argv.
Qed.

End Split.

Lemma split_serves_remainder_then_restores_witness :
  let a := arguments_of ["--option=5"; "-"] in
  let a1 := mkArguments 2 0 "" [9%nat; 11%nat] (chars a) in
  0 < count_ a /\
  argv_at a (values_ a) = Some O /\
  cstr (chars a) 0 = ("--option" +:+ "=") +:+ "5" /\
  build_dispatchers Test_params !! ("--option" +:+ "=") = Some Test_option /\
  get a1 = ("5", advance a1).
Proof.
  intros a a1.
  pose proof (split_serves_remainder_then_restores
                (build_dispatchers Test_params) Test_params new_Test a
                "--option" "5" Test_option O
                eq_refl eq_refl eq_refl eq_refl eq_refl) as H.
  cbv zeta in H. destruct H as (_ & H & _).
  split; [reflexivity|]. split; [reflexivity|].
  split; [reflexivity|]. split; [reflexivity|].
  exact H.
Defined.

(** The scenario on the table of the test program: [Test::option] reads
    "5" into [s], the loop goes on with the next token, and the token
    array is back to its two original pointers. *)
Example parse_option_with_inline_value :
  parse 3 new_Test Test_params (arguments_of ["--option=5"; "-"]) =
    Some (true, mkTest 0 0 "5",
          mkArguments 0 2 "--option= " [0%nat; 11%nat]
            (chars (arguments_of ["--option=5"; "-"]))).
Proof. vm_compute. reflexivity. Qed.

(** From a line of text to the handlers: the tokenizer's buffer and
    pointers serve as the token array of a cursor. *)
Example parse_tokenized_line :
  parse 4 new_Test Test_params
    (arguments_of_line true
       ("--option=5 foo 12 # three slots" +:+ String newline "x -7 -h") "#") =
    Some (true, mkTest 12 (-7) "x",
          mkArguments 0 6 "foo "
            [0; 11; 15; 32; 34; 37]%nat
            (fst (str2argv_h.str2argv true
                    (list_ascii_of_string
                       ("--option=5 foo 12 # three slots"
                          +:+ String newline "x -7 -h")) "#"))).
Proof. vm_compute. reflexivity. Qed.

(** A handler that succeeds without taking the inline value is called
    again on the same token: the restored entry is pulled anew, and the
    loop never ends. *)
Lemma parse_loop_ignored_value_never_ends (fuel : nat) (obj : Test) :
  parse_loop fuel
    (build_dispatchers [mkParameter (Some Test_dash) (Some "--o=") None None])
    [mkParameter (Some Test_dash) (Some "--o=") None None] obj
    (arguments_of ["--o=5"]) = None.
Proof.
  induction fuel as [|fuel IH]; [reflexivity|]. exact IH.
Qed.

(** ** The token loop *)

Section Loop.

Context {Class : Type}.

Implicit Types (params : list (Parameter_t Class)).
Implicit Types (dispatchers : gmap string (dispatcher_type Class)).
Implicit Types (d : dispatcher_type Class) (key param : string).
Implicit Types (obj : Class) (a : Arguments).




Lemma find_take (c : ascii) (s : string) (n : nat) :
  sv.find c s = Some n -> sv.find c (sv.take (S n) s) = Some n.
Proof.
  revert n. induction s as [|b s IH]; intros n; simpl; [discriminate|].
  destruct (Ascii.eqb b c) eqn:Eb.
  - by intros [= <-].
  - destruct (sv.find c s) as [m|]; [|discriminate].
    intros [= <-]. by rewrite (IH m eq_refl).
Qed.



(** The fuel only bounds the number of turns: a result reached with some
    fuel is the result with any larger fuel. *)
Lemma parse_loop_more_fuel (f f' : nat) dispatchers params obj a r :
  (f <= f')%nat ->
  parse_loop f dispatchers params obj a = Some r ->
  parse_loop f' dispatchers params obj a = Some r.
Proof.
  revert f' obj a. induction f as [|f IH]; intros f' obj a Hle; [discriminate|].
  destruct f' as [|f']; [lia|]. simpl.
  destruct (get a) as [param a1].
  destruct ((0 <=? count_ a1) && negb (sv.empty param)); [|done].
  destruct (parse_body dispatchers params obj param a1) as [[[x|] obj1] a2]; [done|].
  apply IH. lia.
Qed.



End Loop.

(** ** The handlers of the test program consume *)









(** * Further properties of the cursor *)

Lemma token_at_advance (a : Arguments) (j : Z) :
  token_at (advance a) j = token_at a j.
Proof. reflexivity. Qed.

Lemma existsb_seq_shift (f : nat -> bool) (n : nat) :
  existsb f (List.seq 1 n) = existsb (fun k => f (S k)) (List.seq 0 n).
Proof. rewrite <- List.seq_shift. induction (List.seq 0 n); simpl; congruence. Qed.

Lemma existsb_pointwise {A : Type} (f g : A -> bool) (l : list A) :
  (forall x, f x = g x) -> existsb f l = existsb g l.
Proof. intros H. induction l as [|x l IH]; simpl; [done|by rewrite H, IH]. Qed.

(** X1. [contains(value)] answers whether one of the tokens still ahead
    equals [value]: it is true exactly when some token among the next
    [count_] ones is [value], false on an empty cursor, and on a cursor
    with tokens it tests the current token and then what [contains] finds
    after stepping over it. *)
Theorem contains_scans_remaining (value : string) (a : Arguments) :
  (contains value a = true <->
     exists k : nat,
       Z.of_nat k < count_ a /\ token_at a (values_ a + Z.of_nat k) = value) /\
  (count_ a <= 0 -> contains value a = false) /\
  (0 < count_ a ->
     contains value a =
       String.eqb value (token_at a (values_ a)) || contains value (advance a)).
Proof.
  unfold contains. split_and!.
  - rewrite List.existsb_exists. split.
    + intros (k & Hin & Heq). apply List.in_seq in Hin.
      apply String.eqb_eq in Heq. exists k. split; [lia|done].
    + intros (k & Hk & Heq). exists k. split.
      * apply List.in_seq. lia.
      * by apply String.eqb_eq.
  - intros Hempty. by replace (Z.to_nat (count_ a)) with O by lia.
  - intros Hcount.
    replace (Z.to_nat (count_ a)) with (S (Z.to_nat (count_ (advance a))))
      by (simpl; lia).
    cbn [List.seq existsb]. rewrite existsb_seq_shift.
    replace (values_ a + Z.of_nat 0) with (values_ a) by lia.
    f_equal.
    apply existsb_pointwise. intros k.
    rewrite token_at_advance. simpl. do 2 f_equal. lia.
Qed.

Lemma contains_scans_remaining_witness :
  let a := advance (arguments_of ["-v"; "--help"; "x"]) in
  0 < count_ a /\ contains "--help" a = true /\ contains "-v" a = false /\
  contains "x" a = String.eqb "x" (token_at a (values_ a)) || contains "x" (advance a).
Proof.
  intros a. split; [reflexivity|]. split; [reflexivity|]. split; [reflexivity|].
  apply (contains_scans_remaining "x" a). reflexivity.
Defined.

Lemma get_int_reads_to_string_witness :
  let a := arguments_of ["-32768,"] in
  0 < count_ a /\ lowest short <= -32768 <= max short /\
  no_leading_digit "," /\
  token_at a (values_ a) = to_string (-32768) +:+ "," /\
  get_int short 0 a = (true, -32768, advance a).
Proof.
  intros a. split; [reflexivity|]. split; [vm_compute; split; discriminate|].
  split; [reflexivity|]. split; [reflexivity|].
  apply (get_int_reads_to_string short (-32768) 0 "," a).
  - reflexivity.
  - vm_compute; split; discriminate.
  - reflexivity.
  - reflexivity.
Defined.

Lemma fold_left_append (strs : list string) (e : string) :
  fold_left String.append strs e = e +:+ fold_right String.append "" strs.
Proof.
  revert e. induction strs as [|x strs IH]; intros e; simpl.
  - by rewrite append_nil_r.
  - by rewrite IH, append_assoc.
Qed.

Lemma digits_prefix_nil (t : string) : no_leading_digit t -> digits_prefix t = [].
Proof. destruct t as [|c t]; simpl; [done|]. by intros ->. Qed.

(** X3. On a token that does not start with a number ([get] on an
    integer slot looks, after a minus sign when the slot is signed, for a
    first digit) the call fails, leaves the slot and the position as they
    were, enters FAILURE and appends "expects number in place of
    '<token>'". A minus sign in front of digits is such a token for an
    unsigned slot. *)
Theorem get_int_rejects_non_number (T : int_type) (v : Z) (a : Arguments) :
  0 < count_ a ->
  no_leading_digit
    (if is_signed T && starts_with_minus (token_at a (values_ a))
     then sv.drop 1 (token_at a (values_ a)) else token_at a (values_ a)) ->
  get_int T v a =
    (false, v,
     mkArguments (-1) (values_ a)
       (errors_ a +:+ "expects number in place of '"
          +:+ token_at a (values_ a) +:+ "'")
       (argv a) (chars a)).
Proof.
  intros Hcount Hnone. unfold get_int.
  destruct (Z.leb_spec (count_ a) 0); [lia|].
  unfold from_chars. rewrite (digits_prefix_nil _ Hnone). simpl.
  unfold message. by rewrite fold_left_append.
Qed.

Lemma get_int_rejects_non_number_witness :
  let a := arguments_of ["-5"; "x"] in
  0 < count_ a /\
  get_int unsigned 7 a =
    (false, 7,
     mkArguments (-1) 0 "expects number in place of '-5'" (argv a) (chars a)).
Proof.
  intros a. split; [reflexivity|].
  apply (get_int_rejects_non_number unsigned 7 a); reflexivity.
Defined.

(** X4. On a token whose digits (after a minus sign for a signed slot)
    spell a value the slot type cannot hold, [get] on the integer slot
    fails, leaves the slot and the position as they were, enters FAILURE
    and appends "expects number in range [<lowest>..<max>] in place of
    '<token>'" with the bounds of the slot type. *)
Theorem get_int_rejects_out_of_range
    (T : int_type) (neg : bool) (ds : list Z) (rest : string) (v : Z)
    (a : Arguments) :
  0 < count_ a ->
  ds <> [] -> Forall is_digit ds -> no_leading_digit rest ->
  (neg = true -> is_signed T = true) ->
  ~ lowest T <= (if neg then - decimal_value ds else decimal_value ds) <= max T ->
  token_at a (values_ a) =
    (if neg then "-" else "") +:+ string_of_digits ds +:+ rest ->
  get_int T v a =
    (false, v,
     mkArguments (-1) (values_ a)
       (errors_ a +:+ "expects number in range [" +:+ to_string (lowest T)
          +:+ ".." +:+ to_string (max T) +:+ "] in place of '"
          +:+ token_at a (values_ a) +:+ "'")
       (argv a) (chars a)).
Proof.
  intros Hcount Hne Hds Hrest Hneg Hrange Htok. unfold get_int.
  destruct (Z.leb_spec (count_ a) 0); [lia|].
  assert (Hparse : from_chars T (token_at a (values_ a)) v =
            (mk_from_chars_result ((if neg then 1 else 0) + List.length ds)
               result_out_of_range, v)).
  { rewrite Htok. unfold from_chars. destruct neg.
    - rewrite (Hneg eq_refl). simpl.
      rewrite digits_prefix_digits by done.
      destruct ds as [|d ds]; [done|].
      destruct (Z.leb_spec (lowest T) (- decimal_value (d :: ds)));
        destruct (Z.leb_spec (- decimal_value (d :: ds)) (max T));
        simpl; try reflexivity; lia.
    - destruct ds as [|d ds]; [done|].
      assert (Hminus : starts_with_minus
                ("" +:+ string_of_digits (d :: ds) +:+ rest) = false).
      { simpl. apply digit_char_not_minus. by inversion Hds. }
      rewrite Hminus, andb_false_r.
      change ("" +:+ string_of_digits (d :: ds) +:+ rest)
        with (string_of_digits (d :: ds) +:+ rest).
      rewrite digits_prefix_digits by done.
      destruct (Z.leb_spec (lowest T) (decimal_value (d :: ds)));
        destruct (Z.leb_spec (decimal_value (d :: ds)) (max T));
        simpl; try reflexivity; lia. }
  rewrite Hparse. simpl. unfold message. by rewrite fold_left_append.
Qed.

Lemma get_int_rejects_out_of_range_witness :
  let a := arguments_of ["70000"] in
  0 < count_ a /\
  get_int short 3 a =
    (false, 3,
     mkArguments (-1) 0
       "expects number in range [-32768..32767] in place of '70000'"
       (argv a) (chars a)).
Proof.
  intros a. split; [reflexivity|].
  apply (get_int_rejects_out_of_range short false [7; 0; 0; 0; 0] "" 3 a).
  - reflexivity.
  - discriminate.
  - repeat constructor; unfold is_digit; lia.
  - exact I.
  - discriminate.
  - vm_compute. intros [_ H]. by apply H.
  - reflexivity.
Defined.

Section Sticky.

Context {FP : FloatParser}.

Lemma get_slot_empty (sl : slot) (a : Arguments) :
  count_ a <= 0 -> get_slot sl a = (false, sl, a).
Proof.
  intros H. destruct sl as [T v|v|v]; simpl.
  - by rewrite get_int_empty.
  - by rewrite get_double_empty.
  - by rewrite get_string_empty.
Qed.

(** A failing [get] on a cursor with tokens wrote one message and nothing
    else. *)
Lemma get_slot_false (sl sl' : slot) (a a' : Arguments) :
  0 < count_ a ->
  get_slot sl a = (false, sl', a') ->
  exists msg,
    msg <> EmptyString /\
    a' = mkArguments (-1) (values_ a) (errors_ a +:+ msg) (argv a) (chars a).
Proof.
  intros Hcount. destruct sl as [T v|v|v]; simpl.
  - unfold get_int. destruct (Z.leb_spec (count_ a) 0); [lia|].
    destruct (from_chars T _ v) as [r v'].
    destruct (ec r); intros [= <- <-]; unfold message;
      rewrite fold_left_append; eexists; (split; [|reflexivity]); done.
  - unfold get_double. destruct (Z.leb_spec (count_ a) 0); [lia|].
    destruct (from_chars_double _ v) as [r v'].
    destruct (ec r); intros [= <- <-]; unfold message;
      rewrite fold_left_append; eexists; (split; [|reflexivity]); done.
  - unfold get_string. destruct (Z.leb_spec (count_ a) 0); [lia|].
    discriminate.
Qed.

(** X5. The first error wins. When [get] on a slot fails on a cursor that
    had tokens, it has appended one non-empty message, entered FAILURE and
    left the position on the offending token; from then on every
    extraction ([get] on any slot, [get()], [getall]) returns failure and
    leaves the cursor, the message included, exactly as it is. *)
Theorem first_error_is_kept (sl sl' : slot) (a a' : Arguments) :
  0 < count_ a ->
  get_slot sl a = (false, sl', a') ->
  (exists msg, msg <> EmptyString /\ errors_ a' = errors_ a +:+ msg) /\
  count_ a' = -1 /\ values_ a' = values_ a /\
  (forall sl2, get_slot sl2 a' = (false, sl2, a')) /\
  get a' = (EmptyString, a') /\
  (forall slots, getall slots a' = (false, slots, a')).
Proof.
  intros Hcount Hget.
  destruct (get_slot_false _ _ _ _ Hcount Hget) as (msg & Hmsg & ->).
  split; [by exists msg|]. split; [done|]. split; [done|].
  split; [intros sl2; by apply get_slot_empty|].
  split; [by apply get_empty|].
  intros slots. by apply getall_failure.
Qed.

Lemma get_slot_errors (sl sl' : slot) (a a' : Arguments) (ok : bool) :
  get_slot sl a = (ok, sl', a') ->
  exists msg,
    errors_ a' = errors_ a +:+ msg /\ (ok = true -> msg = EmptyString) /\
    argv a' = argv a /\ chars a' = chars a.
Proof.
  intros Hget. destruct ok.
  - apply get_slot_true in Hget as [-> _]. exists EmptyString.
    simpl. by rewrite append_nil_r.
  - destruct (Z.leb_spec (count_ a) 0) as [Hle|Hgt].
    + rewrite get_slot_empty in Hget by done. injection Hget as <- <-.
      exists EmptyString. by rewrite append_nil_r.
    + destruct (get_slot_false _ _ _ _ Hgt Hget) as (msg & _ & ->).
      by exists msg.
Qed.

Lemma get_each_errors (slots slots' : list slot) (a a' : Arguments) (ok : bool) :
  get_each slots a = (ok, slots', a') ->
  exists msg,
    errors_ a' = errors_ a +:+ msg /\ (ok = true -> msg = EmptyString) /\
    argv a' = argv a /\ chars a' = chars a.
Proof.
  revert slots' a a' ok.
  induction slots as [|sl rest IH]; intros slots' a a' ok; simpl.
  - intros [= <- <- <-]. exists EmptyString. by rewrite append_nil_r.
  - destruct (get_slot sl a) as [[ok1 sl1] a1] eqn:Hfirst.
    apply get_slot_errors in Hfirst as (m1 & He1 & Hok1 & Hargv1 & Hchars1).
    destruct ok1.
    + destruct (get_each rest a1) as [[ok2 rest2] a2] eqn:Hrest.
      intros [= <- <- <-].
      apply IH in Hrest as (m2 & He2 & Hok2 & Hargv2 & Hchars2).
      exists m2. rewrite (Hok1 eq_refl), append_nil_r in He1.
      split; [by rewrite He2, He1|]. split; [exact Hok2|].
      split; [by rewrite Hargv2|by rewrite Hchars2].
    + intros [= <- <- <-]. exists m1. by split_and!.
Qed.

(** X6. Extraction only ever appends to the error text and never writes
    to the token array or to the bytes of the tokens: after [getall] the
    error text is the previous one followed by what the call reported,
    which is nothing when the call succeeded. *)
Theorem getall_appends_errors (slots slots' : list slot) (a a' : Arguments)
    (ok : bool) :
  getall slots a = (ok, slots', a') ->
  exists msg,
    errors_ a' = errors_ a +:+ msg /\ (ok = true -> msg = EmptyString) /\
    argv a' = argv a /\ chars a' = chars a.
Proof.
  unfold getall. destruct (count_ a <? 0).
  - intros [= <- <- <-]. exists EmptyString. by rewrite append_nil_r.
  - destruct (count_ a <? Z.of_nat (List.length slots)).
    + intros [= <- <- <-]. unfold message. rewrite fold_left_append.
      eexists. by split_and!.
    + apply get_each_errors.
Qed.

End Sticky.

Lemma first_error_is_kept_witness :
  let a := arguments_of ["abc"; "def"] in
  0 < count_ a /\
  get_slot (IntSlot unsigned 0) a =
    (false, IntSlot unsigned 0,
     mkArguments (-1) 0 "expects number in place of 'abc'" (argv a) (chars a)) /\
  get_slot (StringSlot "")
    (mkArguments (-1) 0 "expects number in place of 'abc'" (argv a) (chars a)) =
    (false, StringSlot "",
     mkArguments (-1) 0 "expects number in place of 'abc'" (argv a) (chars a)).
Proof.
  intros a. split; [reflexivity|]. split; [reflexivity|].
  apply (first_error_is_kept (IntSlot unsigned 0) (IntSlot unsigned 0) a);
    reflexivity.
Defined.

Lemma getall_appends_errors_witness :
  let a := snd (errors_swap "foo " (arguments_of ["1"; "x"])) in
  getall [IntSlot unsigned 0; StringSlot ""; IntSlot short 0] a =
    (false, [IntSlot unsigned 0; StringSlot ""; IntSlot short 0],
     mkArguments (-1) 0 "foo expects 3 parameters, got only 2" (argv a) (chars a)) /\
  exists msg, "foo expects 3 parameters, got only 2" = "foo " +:+ msg.
Proof.
  intros a. split; [reflexivity|].
  destruct (getall_appends_errors
              [IntSlot unsigned 0; StringSlot ""; IntSlot short 0] _ a _ false
              eq_refl) as (msg & Hmsg & _).
  by exists msg.
Defined.

(** * The cursor stays inside its token array *)

Section Bounds.

Context {FP : FloatParser} {Class : Type}.

Implicit Types (a : Arguments) (obj : Class).
Implicit Types (dispatchers : gmap string (dispatcher_type Class)).


Lemma in_bounds_advance a : in_bounds a -> in_bounds (advance a).
Proof. intros [Hlow Hhigh]. unfold in_bounds. simpl. lia. Qed.

Lemma in_bounds_message (strs : list string) a :
  in_bounds a -> 0 <= count_ a -> in_bounds (message strs a).
Proof. intros [Hlow Hhigh] Hcount. unfold in_bounds. simpl. lia. Qed.

Lemma in_bounds_get a : in_bounds a -> in_bounds (snd (get a)).
Proof.
  intros Hin. unfold get. destruct (count_ a <=? 0); [done|].
  by apply in_bounds_advance.
Qed.

Lemma in_bounds_get_slot (sl : slot) a :
  in_bounds a -> in_bounds (snd (get_slot sl a)).
Proof.
  intros Hin. destruct (get_slot sl a) as [[ok sl'] a'] eqn:Hget. simpl.
  destruct ok.
  - apply get_slot_true in Hget as [-> _]. by apply in_bounds_advance.
  - destruct (Z.leb_spec (count_ a) 0) as [Hle|Hgt].
    + rewrite get_slot_empty in Hget by done. by injection Hget as <- <-.
    + destruct (get_slot_false _ _ _ _ Hgt Hget) as (msg & _ & ->).
      destruct Hin as [Hlow Hhigh]. unfold in_bounds. simpl. lia.
Qed.

Lemma in_bounds_get_each (slots : list slot) a :
  in_bounds a -> in_bounds (snd (get_each slots a)).
Proof.
  revert a. induction slots as [|sl rest IH]; intros a Hin; simpl; [done|].
  pose proof (in_bounds_get_slot sl a Hin) as Hfirst.
  destruct (get_slot sl a) as [[ok sl'] a1]. simpl in Hfirst.
  destruct ok; [|done].
  specialize (IH a1 Hfirst). by destruct (get_each rest a1) as [[ok2 rest2] a2].
Qed.

Lemma in_bounds_getall (slots : list slot) a :
  in_bounds a -> in_bounds (snd (getall slots a)).
Proof.
  intros Hin. unfold getall. destruct (Z.ltb_spec (count_ a) 0); [done|].
  destruct (count_ a <? Z.of_nat (List.length slots)).
  - by apply in_bounds_message.
  - by apply in_bounds_get_each.
Qed.















End Bounds.




(** At the lowest [int] the decrement of [operator++] leaves the range of
    [int]: the arithmetic result is one below it, and the C++ is
    undefined. *)
Lemma advance_at_lowest_int :
  let a := make_arguments (lowest c_int) [] [] in
  in_bounds a /\ is_int (count_ a) /\
  count_ (advance a) = lowest c_int - 1 /\ ~ is_int (count_ (advance a)).
Proof.
  intros a. split_and!.
  - split; vm_compute; discriminate.
  - split; vm_compute; discriminate.
  - reflexivity.
  - intros [Hlow _]. vm_compute in Hlow. by apply Hlow.
Qed.

(** * Further properties of the tokenizer *)

Section TokenizerMore.

Import str2argv_h.

Variable char_signed : bool.
Variable comment : ascii.

Lemma loop_length (state : state_t) (pos : nat) (str : list ascii) :
  List.length (fst (loop char_signed comment state pos str)) = List.length str.
Proof. by rewrite loop_buffer, List.length_map. Qed.

(** A pointer is recorded only on an ordinary byte, and the pointers come
    out in the order of the bytes. *)
Lemma loop_pointers (state : state_t) (pos : nat) (str : list ascii) :
  Forall (fun p => (pos <= p)%nat /\ exists chr,
            str !! (p - pos)%nat = Some chr /\
            classify char_signed comment chr = sy_token)
    (snd (loop char_signed comment state pos str)) /\
  StronglySorted lt (snd (loop char_signed comment state pos str)).
Proof.
  revert state pos. induction str as [|chr rest IH]; intros state pos.
  - split; constructor.
  - simpl.
    specialize (IH (transitions state (classify char_signed comment chr)) (S pos)).
    destruct (loop char_signed comment _ (S pos) rest) as [rest' result].
    simpl in *. destruct IH as [Hall Hsorted].
    assert (Htail : Forall (fun p => (pos <= p)%nat /\ exists c,
              (chr :: rest) !! (p - pos)%nat = Some c /\
              classify char_signed comment c = sy_token) result).
    { eapply Forall_impl; [exact Hall|].
      intros p (Hp & c & Hlook & Hcls). split; [lia|]. exists c.
      split; [|done].
      replace (p - pos)%nat with (S (p - S pos)) by lia. done. }
    destruct (is_start (transitions state (classify char_signed comment chr)))
      eqn:Hstart; [|by split].
    split.
    + constructor; [|exact Htail]. split; [lia|]. exists chr.
      rewrite Nat.sub_diag. split; [done|].
      destruct state, (classify char_signed comment chr); simpl in *; congruence.
    + constructor; [exact Hsorted|].
      eapply Forall_impl; [exact Hall|]. intros p [Hp _]. lia.
Qed.

Lemma token_class_not_NUL (chr : ascii) :
  classify char_signed comment chr = sy_token -> Ascii.eqb chr NUL = false.
Proof.
  destruct (Ascii.eqb_spec chr NUL) as [->|]; [|done].
  unfold classify. simpl. by destruct char_signed.
Qed.

Lemma cstr_of_rewritten (l : list ascii) :
  string_forall (fun c => is_token (classify char_signed comment c))
    (cstr_of (List.map (rewritten char_signed comment) l)) = true.
Proof.
  induction l as [|c l IH]; [done|].
  cbn [List.map cstr_of].
  destruct (is_token (classify char_signed comment c)) eqn:Hc.
  - assert (rewritten char_signed comment c = c) as ->
      by (unfold rewritten; by rewrite Hc).
    destruct (Ascii.eqb c NUL); [done|].
    cbn [string_forall]. cbv beta. by rewrite Hc, IH.
  - assert (rewritten char_signed comment c = NUL) as ->
      by (unfold rewritten; by rewrite Hc).
    done.
Qed.

(** X8. [str2argv] rewrites its buffer in place, keeping its length, and
    the pointers it returns are offsets inside the buffer, in strictly
    increasing order; so a cursor built from the returned pointers and
    their number lies inside its token array. *)
Theorem str2argv_pointers_in_order (str : list ascii) :
  List.length (fst (str2argv char_signed str comment)) = List.length str /\
  Forall (fun p => (p < List.length str)%nat)
    (snd (str2argv char_signed str comment)) /\
  StronglySorted lt (snd (str2argv char_signed str comment)) /\
  in_bounds
    (make_arguments
       (Z.of_nat (List.length (snd (str2argv char_signed str comment))))
       (snd (str2argv char_signed str comment))
       (fst (str2argv char_signed str comment))).
Proof.
  unfold str2argv. split; [apply loop_length|].
  destruct (loop_pointers st_space O str) as [Hall Hsorted].
  split; [|split; [exact Hsorted|]].
  - eapply Forall_impl; [exact Hall|].
    intros p (_ & c & Hlook & _). rewrite Nat.sub_0_r in Hlook.
    by eapply lookup_lt_Some.
  - unfold in_bounds, make_arguments. simpl. lia.
Qed.

(** X9. Every token read back through a pointer [str2argv] returned is
    non-empty and made of ordinary bytes only: no newline, no white space
    or control byte, no comment marker. The dispatch loop, which stops at
    an empty token, is therefore never cut short on tokenized input. *)
Theorem str2argv_tokens_are_words (str : list ascii) :
  Forall (fun p =>
            cstr (fst (str2argv char_signed str comment)) p <> EmptyString /\
            string_forall (fun c => is_token (classify char_signed comment c))
              (cstr (fst (str2argv char_signed str comment)) p) = true)
    (snd (str2argv char_signed str comment)).
Proof.
  unfold str2argv.
  destruct (loop_pointers st_space O str) as [Hall _].
  eapply Forall_impl; [exact Hall|].
  intros p (_ & c & Hlook & Hcls). rewrite Nat.sub_0_r in Hlook.
  unfold cstr. rewrite loop_buffer, List.skipn_map. split.
  - rewrite (drop_S _ _ _ Hlook). cbn [List.map cstr_of].
    assert (rewritten char_signed comment c = c) as ->
      by (unfold rewritten; by rewrite Hcls).
    by rewrite (token_class_not_NUL _ Hcls).
  - apply cstr_of_rewritten.
Qed.

End TokenizerMore.

(** * Further properties of the dispatch table and of the loop *)

Section TableMore.

Context {Class : Type}.

Implicit Types (p q : Parameter_t Class) (params : list (Parameter_t Class)).
Implicit Types (m : gmap string (dispatcher_type Class)).
Implicit Types (d : dispatcher_type Class) (key : string).

Lemma add_parameter_other p m key :
  (is_valid p = true -> key ∉ keys_of p) ->
  add_parameter p m !! key = m !! key.
Proof.
  intros Hkey. destruct (is_valid p) eqn:Hvalid.
  - destruct (is_valid_true p Hvalid) as (n & d & Hn & _ & Hd).
    rewrite (add_parameter_lookup p m n d) by done.
    rewrite decide_False; [done|by apply Hkey].
  - by rewrite add_parameter_invalid.
Qed.

Lemma add_parameters_other params m key :
  (forall q, q ∈ params -> is_valid q = true -> key ∉ keys_of q) ->
  fold_left (fun x q => add_parameter q x) params m !! key = m !! key.
Proof.
  revert m. induction params as [|q params IH]; intros m Hkey; simpl; [done|].
  rewrite IH.
  - apply add_parameter_other. apply Hkey. by left.
  - intros q' Hq'. apply Hkey. by right.
Qed.

(** X10. When several descriptors of a table stand for the same key, the
    last valid one decides: a key of a valid descriptor is mapped to that
    descriptor's dispatcher as soon as no valid descriptor after it in
    the table also stands for the key. In a table whose keys are all
    different every name and alias reaches its own dispatcher. *)
Theorem last_descriptor_wins (before after : list (Parameter_t Class)) p d key :
  is_valid p = true ->
  dispatcher_ p = Some d ->
  key ∈ keys_of p ->
  (forall q, q ∈ after -> is_valid q = true -> key ∉ keys_of q) ->
  build_dispatchers (before ++ p :: after) !! key = Some d.
Proof.
  intros Hvalid Hd Hkey Hafter. unfold build_dispatchers.
  rewrite fold_left_app. simpl. rewrite add_parameters_other by done.
  destruct (is_valid_true p Hvalid) as (n & d' & Hn & _ & Hd').
  rewrite (add_parameter_lookup p _ n d') by done.
  rewrite decide_True by done. congruence.
Qed.

Lemma find_lt (c : ascii) (t : string) (n : nat) :
  sv.find c t = Some n -> (n < String.length t)%nat.
Proof.
  revert n. induction t as [|b t IH]; intros n; simpl; [discriminate|].
  destruct (Ascii.eqb b c); [intros [= <-]; lia|].
  destruct (sv.find c t) as [k|]; [|discriminate].
  intros [= <-]. specialize (IH k eq_refl). lia.
Qed.

Lemma length_take (n : nat) (t : string) :
  (n <= String.length t)%nat -> String.length (sv.take n t) = n.
Proof.
  revert t. induction n as [|n IH]; intros [|b t]; simpl; try lia.
  intros H. rewrite IH; lia.
Qed.

(** X11. The lookup key of a token never has anything after an ['=']:
    no token has as its key a name (or alias) in which characters follow
    the first ['=']. A descriptor registered under such a name is never
    reached through it, whatever the tokens. *)
Theorem key_with_inner_eq_is_unreachable (n : string) (k : nat) :
  sv.find eq_char n = Some k ->
  (S k < String.length n)%nat ->
  forall token : string, key_of token <> n.
Proof.
  intros Hfind Hlong token Hkey. unfold key_of in Hkey.
  destruct (sv.find eq_char token) as [j|] eqn:Htoken.
  - pose proof (find_take _ _ _ Htoken) as Hj.
    pose proof (find_lt _ _ _ Htoken) as Hlt.
    rewrite Hkey, Hfind in Hj. injection Hj as ->.
    pose proof (length_take (S j) token ltac:(lia)) as Hlen.
    rewrite Hkey in Hlen. lia.
  - subst token. congruence.
Qed.

End TableMore.

Lemma last_descriptor_wins_witness :
  let twice : Parameter_t Test :=
    mkParameter (Some careless) (Some "b") (Some "again") (Some "a") in
  build_dispatchers [verb_a; twice; verb_ghost] !! "a" = Some careless.
Proof.
  intros twice.
  apply (last_descriptor_wins [verb_a] [verb_ghost] twice careless "a").
  - reflexivity.
  - reflexivity.
  - vm_compute. right. left.
  - intros q Hq Hvalid. apply list_elem_of_singleton in Hq as ->. discriminate.
Defined.

Lemma key_with_inner_eq_is_unreachable_witness :
  sv.find eq_char "--level=high" = Some 7%nat /\
  key_of "--level=high" <> "--level=high" /\ key_of "--level=high" = "--level=".
Proof.
  split; [reflexivity|]. split; [|reflexivity].
  apply (key_with_inner_eq_is_unreachable "--level=high" 7).
  - reflexivity.
  - vm_compute. lia.
Defined.

Section SplitMore.

Context {Class : Type}.

Implicit Types (params : list (Parameter_t Class)).
Implicit Types (dispatchers : gmap string (dispatcher_type Class)).
Implicit Types (d : dispatcher_type Class) (obj : Class) (a : Arguments).

Lemma unget_after_get (pos : nat) a (p : nat) :
  0 < count_ a ->
  argv_at a (values_ a) = Some p ->
  unget pos (advance a) =
    (Some (values_ a, p),
     mkArguments (count_ a) (values_ a) (errors_ a)
       (<[Z.to_nat (values_ a) := (p + pos)%nat]> (argv a)) (chars a)).
Proof.
  intros Hcount Hp. unfold unget.
  assert ((count_ (advance a) <? 0) = false) as -> by (simpl; lia).
  assert (Hback : values_ (advance a) - 1 = values_ a) by (simpl; lia).
  rewrite Hback.
  assert (argv_at (advance a) (values_ a) = Some p) as -> by exact Hp.
  simpl. do 2 f_equal. lia.
Qed.

(** X12. Pulling a token, un-getting it at an offset inside the token,
    pulling again and reverting is the same as pulling it once: the
    second pull returns the token from that offset on, and after the
    revert the cursor and the token array are exactly what the first pull
    left. *)
Theorem unget_get_revert_round_trip (pos : nat) a (p : nat) :
  0 < count_ a ->
  argv_at a (values_ a) = Some p ->
  (pos <= String.length (token_at a (values_ a)))%nat ->
  fst (get (snd (unget pos (snd (get a))))) =
    sv.drop pos (token_at a (values_ a)) /\
  revert (fst (unget pos (snd (get a))))
    (snd (get (snd (unget pos (snd (get a)))))) = snd (get a).
Proof.
  intros Hcount Hp Hpos.
  pose proof (argv_at_Some _ _ _ Hp) as [Hv Hlook].
  rewrite (get_nonempty a) by done. cbn [snd].
  rewrite (unget_after_get pos a p) by done. cbn [fst snd].
  rewrite get_nonempty by done. cbn [fst snd]. split.
  - unfold token_at at 1. unfold argv_at. simpl.
    destruct (Z.ltb_spec (values_ a) 0); [lia|].
    rewrite list_lookup_insert_eq by (by eapply lookup_lt_Some).
    rewrite cstr_advance.
    + unfold token_at. by rewrite Hp.
    + unfold token_at in Hpos. by rewrite Hp in Hpos.
  - unfold revert, advance, set_argv, set_cursor. simpl.
    rewrite list_insert_insert_eq, list_insert_id by done. reflexivity.
Qed.

Lemma set_errors_same a : set_errors (errors_ a) a = a.
Proof. by destruct a. Qed.

(** X13. A handler bound to a key [k=] that succeeds without taking the
    inline value hangs the dispatch loop. When the current token is
    [k=value] and the handler for [k=] returns success leaving count,
    position and memory as it found them, the restored token is pulled
    and dispatched again at every turn: [parse] returns with no amount of
    fuel. *)
Theorem parse_hangs_when_value_ignored
    dispatchers params a (k value : string) d (p : nat) :
  0 < count_ a ->
  argv_at a (values_ a) = Some p ->
  cstr (chars a) p = (k +:+ "=") +:+ value ->
  sv.find eq_char k = None ->
  dispatchers !! (k +:+ "=") = Some d ->
  leaves_cursor (k +:+ "=") d ->
  forall fuel obj, parse_loop fuel dispatchers params obj a = None.
Proof.
  intros Hcount Hp Htok Hk Hd Hleave fuel obj.
  rewrite <- (set_errors_same a). generalize (errors_ a) as e. revert obj.
  induction fuel as [|fuel IH]; intros obj e; [reflexivity|].
  cbn [parse_loop].
  rewrite get_nonempty by done.
  assert (Htoken : token_at (set_errors e a) (values_ (set_errors e a)) =
                   (k +:+ "=") +:+ value).
  { unfold token_at. simpl.
    change (argv_at (set_errors e a) (values_ a)) with (argv_at a (values_ a)).
    by rewrite Hp. }
  rewrite Htoken.
  assert (((0 <=? count_ (advance (set_errors e a)))
           && negb (sv.empty ((k +:+ "=") +:+ value))) = true) as ->.
  { apply andb_true_iff. split; [simpl; lia|]. by destruct k. }
  unfold parse_body. cbv zeta.
  rewrite (key_of_split k value Hk), (find_eq_split k value Hk), Hd.
  rewrite (unget_after_get _ (set_errors e a) p) by done.
  destruct (Hleave obj
              (mkArguments (count_ (set_errors e a)) (values_ (set_errors e a))
                 (errors_ (set_errors e a))
                 (<[Z.to_nat (values_ (set_errors e a)) :=
                      (p + S (String.length k))%nat]> (argv (set_errors e a)))
                 (chars (set_errors e a))))
    as (Hok & Hc & Hv & Hargv & Hchars).
  destruct (d (k +:+ "=") obj _) as [[ok obj1] a2].
  simpl in Hok, Hc, Hv, Hargv, Hchars. subst ok. cbv beta iota.
  change (values_ (set_errors e a)) with (values_ a).
  assert (Hsame : revert (Some (values_ a, p)) a2 = set_errors (errors_ a2) a).
  { pose proof (argv_at_Some _ _ _ Hp) as [_ Hlook].
    destruct a2 as [c2 v2 e2 l2 m2]. simpl in *. subst.
    unfold set_argv, set_errors. simpl.
    rewrite list_insert_insert_eq, list_insert_id by done. reflexivity. }
  rewrite Hsame. apply IH.
Qed.

End SplitMore.

Lemma unget_get_revert_round_trip_witness :
  let a := arguments_of ["--opt=5"; "x"] in
  0 < count_ a /\
  fst (get (snd (unget 6 (snd (get a))))) = "5" /\
  revert (fst (unget 6 (snd (get a)))) (snd (get (snd (unget 6 (snd (get a))))))
    = snd (get a).
Proof.
  intros a. split; [reflexivity|].
  apply (unget_get_revert_round_trip 6 a 0).
  - reflexivity.
  - reflexivity.
  - vm_compute. lia.
Defined.

Lemma Test_dash_leaves_cursor (key : string) : leaves_cursor key Test_dash.
Proof. by intros obj a. Qed.

Lemma parse_hangs_when_value_ignored_witness :
  let table : list (Parameter_t Test) :=
    [mkParameter (Some Test_dash) (Some "--o=") None None] in
  0 < count_ (arguments_of ["--o=5"]) /\
  parse_loop 1000 (build_dispatchers table) table new_Test
    (arguments_of ["--o=5"]) = None.
Proof.
  intros table. split; [reflexivity|].
  apply (parse_hangs_when_value_ignored (build_dispatchers table) table
           (arguments_of ["--o=5"]) "--o" "5" Test_dash 0).
  - reflexivity.
  - reflexivity.
  - reflexivity.
  - reflexivity.
  - reflexivity.
  - apply Test_dash_leaves_cursor.
Defined.

(** * The pretty-printer *)

Section Printer.

Context {Class : Type}.

Implicit Types (p : Parameter_t Class) (params : list (Parameter_t Class)).
Implicit Types (out : ostream) (bullet alias_label : string).

Lemma length_padding (n : nat) (c : ascii) : String.length (padding n c) = n.
Proof. induction n as [|n IH]; simpl; [done|by rewrite IH]. Qed.

Lemma fold_max_ge params (w : nat) :
  (w <= fold_left (fun x p => Nat.max x (String.length (name_text p))) params w)%nat /\
  Forall (fun p => (String.length (name_text p) <=
                    fold_left (fun x q => Nat.max x (String.length (name_text q)))
                      params w)%nat) params.
Proof.
  revert w. induction params as [|p params IH]; intros w; simpl.
  - split; [lia|constructor].
  - destruct (IH (Nat.max w (String.length (name_text p)))) as [Hw Hall].
    split; [lia|]. constructor; [lia|exact Hall].
Qed.

(** An insertion with no field width pending writes its text as it is. *)
Lemma insert_text_plain (t : string) out :
  width_ out = O ->
  insert_text t out =
    mk_ostream (written out +:+ t) O (adjustfield out) (fill_ out).
Proof.
  intros Hw. unfold insert_text. rewrite Hw. simpl.
  destruct (adjustfield out); by rewrite ?append_nil_r.
Qed.

Lemma print_row_text (width : nat) bullet alias_label out p :
  written (print_row width bullet alias_label out p) =
    written out +:+ row_text width (fill_ out) bullet alias_label p /\
  fill_ (print_row width bullet alias_label out p) = fill_ out.
Proof.
  unfold print_row, row_text, name_cell, label_cell. cbv zeta.
  set (o1 := insert_text (name_text p)
               (set_adjust adjust_left (set_width (width + 1) out))).
  assert (H1 : o1 = mk_ostream
            (written out +:+ name_text p
               +:+ padding (width + 1 - String.length (name_text p)) (fill_ out))
            O adjust_left (fill_ out)) by reflexivity.
  rewrite H1. rewrite !insert_text_plain by reflexivity. cbn [written adjustfield fill_].
  destruct (aliases_ p) as [al|]; [destruct (sv.empty al)|];
    cbn [written fill_]; try (split; [by rewrite ?append_assoc, ?append_nil_r|done]).
  set (o2 := insert_text alias_label _).
  assert (H2 : o2 = mk_ostream
            (((((written out +:+ name_text p
                   +:+ padding (width + 1 - String.length (name_text p)) (fill_ out))
                +:+ bullet) +:+ description_text p) +:+ String newline "")
               +:+ padding (width + 1 + String.length bullet
                            - String.length alias_label) (fill_ out)
               +:+ alias_label)
            O adjust_right (fill_ out)) by reflexivity.
  rewrite H2. rewrite !insert_text_plain by reflexivity. cbn [written fill_].
  split; [by rewrite ?append_assoc|done].
Qed.

Lemma print_rows_text (width : nat) bullet alias_label params out :
  written (fold_left (print_row width bullet alias_label) params out) =
    written out +:+ rows_text width (fill_ out) bullet alias_label params.
Proof.
  revert out. induction params as [|p params IH]; intros out; simpl.
  - by rewrite append_nil_r.
  - destruct (print_row_text width bullet alias_label out p) as [Htext Hfill].
    by rewrite IH, Htext, Hfill, append_assoc.
Qed.

(** X14. [print] writes, after what the stream already holds, one row
    per descriptor of the table in table order, valid or not: the name
    padded on the right, the bullet, the description and a newline, and
    for a descriptor with aliases a second line with the label padded on
    the left, the alias text and a newline. The column width is the
    longest of the names and the label, so no cell is ever cut and every
    name cell is one wider than that; every label cell is as wide as a
    name cell and the bullet together, so descriptions and alias texts
    start in the same column. *)
Theorem print_aligns_columns out params bullet alias_label :
  Forall (fun p => name_ p <> None /\ description_ p <> None) params ->
  written (print out params bullet alias_label) =
    written out +:+
      rows_text (print_width params alias_label) (fill_ out) bullet alias_label
        params /\
  Forall (fun p =>
            String.length (name_cell (print_width params alias_label) (fill_ out) p)
            = (print_width params alias_label + 1)%nat) params /\
  String.length
    (label_cell (print_width params alias_label) (fill_ out) bullet alias_label)
  = (print_width params alias_label + 1 + String.length bullet)%nat.
Proof.
  intros _. unfold print. split; [apply print_rows_text|].
  destruct (fold_max_ge params (String.length alias_label)) as [Hlabel Hnames].
  fold (print_width params alias_label) in Hlabel, Hnames. split.
  - eapply Forall_impl; [exact Hnames|]. intros p Hp. simpl in Hp.
    unfold name_cell. rewrite length_append, length_padding. lia.
  - unfold label_cell. rewrite length_append, length_padding. lia.
Qed.

End Printer.

Lemma print_aligns_columns_witness :
  let out := mk_ostream "Usage:" 0 adjust_right " " in
  Forall (fun p : Parameter_t Test => name_ p <> None /\ description_ p <> None)
    [verb_a; verb_ghost] /\
  written (print out [verb_a; verb_ghost] " - " "Aliases: ") =
    "Usage:" +:+
      rows_text (print_width [verb_a; verb_ghost] "Aliases: ") " " " - "
        "Aliases: " [verb_a; verb_ghost].
Proof.
  intros out.
  assert (Hnames : Forall (fun p : Parameter_t Test =>
                             name_ p <> None /\ description_ p <> None)
                     [verb_a; verb_ghost])
    by (repeat constructor; discriminate).
  split; [exact Hnames|].
  apply (print_aligns_columns out [verb_a; verb_ghost] " - " "Aliases: " Hnames).
Defined.

(** The help text of the two-verb table, as the stream receives it. *)
Example print_sample :
  written (print (mk_ostream "" 0 adjust_right " ") [verb_a; verb_ghost]
             " - " "Aliases: ") =
    "a          - verb a" +:+ String newline
      ("ghost      - no dispatcher" +:+ String newline
         ("    Aliases: g" +:+ String newline "")).
Proof. reflexivity. Qed.

(** * The handlers of the test program *)

Lemma advance_thrice (a : Arguments) :
  advance (advance (advance a)) = advance_by 3 a.
Proof.
  by rewrite <- (advance_by_1 a), !advance_advance_by.
Qed.

(** X15. [Test::foo] reads back what was written: with at least three
    tokens ahead, the first the decimal writing of an [unsigned] value,
    the third that of a [short] value, the handler succeeds, stores the
    first token in [u], the second verbatim in [s] and the third in [i],
    consumes exactly these three tokens and leaves "<name> " as the error
    text. *)
Theorem Test_foo_stores_its_parameters
    (name : string) (self : Test) (a : Arguments) (n1 n2 : Z) (t : string) :
  3 <= count_ a ->
  lowest unsigned <= n1 <= max unsigned ->
  lowest short <= n2 <= max short ->
  token_at a (values_ a) = to_string n1 ->
  token_at a (values_ a + 1) = t ->
  token_at a (values_ a + 2) = to_string n2 ->
  Test_foo name self a =
    (true, mkTest n1 n2 t, advance_by 3 (set_errors (name +:+ " ") a)).
Proof.
  intros Hcount Hn1 Hn2 Ht1 Ht2 Ht3. unfold Test_foo. cbn [errors_swap].
  set (a0 := set_errors (name +:+ " ") a).
  unfold getall.
  assert ((count_ a0 <? 0) = false) as -> by (unfold a0; simpl; lia).
  assert ((count_ a0 <? Z.of_nat (List.length
            [IntSlot unsigned (Test_u self); StringSlot (Test_s self);
             IntSlot short (Test_i self)])) = false) as ->
    by (apply Z.ltb_ge; unfold a0; simpl; lia).
  cbn [get_each get_slot].
  rewrite (get_int_reads_to_string unsigned n1 (Test_u self) "" a0);
    [|unfold a0; simpl; lia|done|done|by rewrite append_nil_r].
  unfold get_string at 1.
  assert ((count_ (advance a0) <=? 0) = false) as -> by (unfold a0; simpl; lia).
  rewrite (get_int_reads_to_string short n2 (Test_i self) ""
             (advance (advance a0)));
    [|unfold a0; simpl; lia|done|done|].
  - rewrite advance_thrice.
    change (token_at (advance a0) (values_ (advance a0)))
      with (token_at a (values_ a + 1)).
    by rewrite Ht2.
  - rewrite append_nil_r.
    change (token_at (advance (advance a0)) (values_ (advance (advance a0))))
      with (token_at a (values_ a + 1 + 1)).
    replace (values_ a + 1 + 1) with (values_ a + 2) by lia. done.
Qed.

Lemma Test_foo_stores_its_parameters_witness :
  let a := arguments_of ["4294967295"; "some text"; "-32768"; "bar"] in
  3 <= count_ a /\
  Test_foo "foo" new_Test a =
    (true, mkTest 4294967295 (-32768) "some text",
     advance_by 3 (set_errors "foo " a)).
Proof.
  intros a. split; [vm_compute; discriminate|].
  apply (Test_foo_stores_its_parameters "foo" new_Test a 4294967295 (-32768)
           "some text").
  - vm_compute; discriminate.
  - vm_compute; split; discriminate.
  - vm_compute; split; discriminate.
  - reflexivity.
  - reflexivity.
  - reflexivity.
Defined.

Lemma Test_handler_text (name : string) (a : Arguments) (slots : list slot)
    (finish : bool * list slot * Arguments -> bool * Test * Arguments) :
  (forall r, fst (fst (finish r)) = fst (fst r) /\ snd (finish r) = snd r) ->
  exists msg,
    errors_ (snd (finish (getall slots (set_errors (name +:+ " ") a)))) =
      name +:+ " " +:+ msg /\
    (fst (fst (finish (getall slots (set_errors (name +:+ " ") a)))) = true ->
     msg = EmptyString).
Proof.
  intros Hfinish.
  destruct (Hfinish (getall slots (set_errors (name +:+ " ") a))) as [Hok Hcur].
  rewrite Hok, Hcur.
  destruct (getall slots (set_errors (name +:+ " ") a)) as [[ok slots'] a'] eqn:Hrun.
  apply getall_appends_errors in Hrun as (msg & Htext & Hempty & _).
  exists msg. simpl in *. by rewrite Htext, append_assoc.
Qed.

(** X16. The handlers [Test::foo], [Test::option] and [Test::bar] start
    the error text afresh with their verb: whatever text the cursor
    carried before the call, afterwards it is "<name> " followed by what
    the extraction reported, which is nothing when the handler
    succeeded. *)
Theorem Test_handlers_prefix_errors (name : string) (self : Test) (a : Arguments) :
  (exists msg,
     errors_ (snd (Test_foo name self a)) = name +:+ " " +:+ msg /\
     (fst (fst (Test_foo name self a)) = true -> msg = EmptyString)) /\
  (exists msg,
     errors_ (snd (Test_option name self a)) = name +:+ " " +:+ msg /\
     (fst (fst (Test_option name self a)) = true -> msg = EmptyString)) /\
  (exists msg,
     errors_ (snd (Test_bar name self a)) = name +:+ " " +:+ msg /\
     (fst (fst (Test_bar name self a)) = true -> msg = EmptyString)).
Proof.
  split_and!.
  - apply (Test_handler_text name a
             [IntSlot unsigned (Test_u self); StringSlot (Test_s self);
              IntSlot short (Test_i self)]
             (fun r => match r with
                       | (ok, [IntSlot _ u'; StringSlot s'; IntSlot _ i'], args) =>
                           (ok, mkTest u' i' s', args)
                       | (ok, _, args) => (ok, self, args)
                       end)).
    intros [[ok slots'] a']. repeat case_match; by simplify_eq.
  - apply (Test_handler_text name a [StringSlot (Test_s self)]
             (fun r => match r with
                       | (ok, [StringSlot s'], args) =>
                           (ok, mkTest (Test_u self) (Test_i self) s', args)
                       | (ok, _, args) => (ok, self, args)
                       end)).
    intros [[ok slots'] a']. repeat case_match; by simplify_eq.
  - apply (Test_handler_text name a
             [IntSlot unsigned (Test_u self); StringSlot (Test_s self)]
             (fun r => match r with
                       | (ok, [IntSlot _ u'; StringSlot s'], args) =>
                           (ok, mkTest u' (Test_i self) s', args)
                       | (ok, _, args) => (ok, self, args)
                       end)).
    intros [[ok slots'] a']. repeat case_match; by simplify_eq.
Qed.

(** * Tokenizing a line written out from words *)

Section RoundTrip.

Import str2argv_h.

Variable char_signed : bool.
Variable comment : ascii.

Lemma length_chars (w : string) :
  List.length (list_ascii_of_string w) = String.length w.
Proof. induction w as [|c w IH]; simpl; [done|by rewrite IH]. Qed.

Lemma classify_space :
  classify char_signed comment space_char = sy_space.
Proof. unfold classify. simpl. by destruct char_signed. Qed.

(** Inside a token the loop copies ordinary bytes and records nothing. *)
Lemma loop_inside_word (state : state_t) (pos : nat) (w : string)
    (tail : list ascii) :
  state = st_start \/ state = st_token ->
  string_forall (fun c => is_token (classify char_signed comment c)) w = true ->
  loop char_signed comment state pos (list_ascii_of_string w ++ tail) =
    (list_ascii_of_string w ++
       fst (loop char_signed comment
              (if sv.empty w then state else st_token)
              (pos + String.length w) tail),
     snd (loop char_signed comment
            (if sv.empty w then state else st_token)
            (pos + String.length w) tail)).
Proof.
  revert state pos. induction w as [|c w IH]; intros state pos Hstate Hw.
  - simpl. rewrite Nat.add_0_r. by destruct (loop _ _ _ _ _).
  - cbn [string_forall] in Hw. apply andb_true_iff in Hw as [Hc Hw].
    cbn [list_ascii_of_string List.app loop String.length sv.empty].
    destruct (classify char_signed comment c) eqn:Hcls; try discriminate.
    assert (transitions state sy_token = st_token) as ->
      by (destruct Hstate as [-> | ->]; reflexivity).
    rewrite (IH st_token (S pos)) by (auto).
    cbn [is_token is_start].
    replace (S pos + String.length w)%nat with (pos + S (String.length w))%nat
      by lia.
    by destruct (sv.empty w).
Qed.

(** From the space state a word is recorded at its first byte and then
    copied. *)
Lemma loop_word (pos : nat) (w : string) (tail : list ascii) :
  w <> EmptyString ->
  string_forall (fun c => is_token (classify char_signed comment c)) w = true ->
  exists state,
    (state = st_start \/ state = st_token) /\
    loop char_signed comment st_space pos (list_ascii_of_string w ++ tail) =
      (list_ascii_of_string w ++
         fst (loop char_signed comment state (pos + String.length w) tail),
       pos :: snd (loop char_signed comment state (pos + String.length w) tail)).
Proof.
  intros Hne Hw. destruct w as [|c w]; [done|].
  cbn [string_forall] in Hw. apply andb_true_iff in Hw as [Hc Hw].
  exists (if sv.empty w then st_start else st_token).
  split; [by destruct (sv.empty w); auto|].
  cbn [list_ascii_of_string List.app loop String.length].
  destruct (classify char_signed comment c) eqn:Hcls; try discriminate.
  cbn [transitions is_token is_start].
  rewrite (loop_inside_word st_start (S pos)) by auto.
  replace (S pos + String.length w)%nat with (pos + S (String.length w))%nat
    by lia.
  reflexivity.
Qed.

Lemma cstr_of_word (w : string) (tail : list ascii) :
  string_forall (fun c => is_token (classify char_signed comment c)) w = true ->
  tail = [] \/ (exists r, tail = NUL :: r) ->
  cstr_of (list_ascii_of_string w ++ tail) = w.
Proof.
  intros Hw Htail. induction w as [|c w IH].
  - simpl. by destruct Htail as [->|[r ->]].
  - cbn [string_forall] in Hw. apply andb_true_iff in Hw as [Hc Hw].
    cbn [list_ascii_of_string List.app cstr_of].
    assert (classify char_signed comment c = sy_token) as Hcls
      by (by destruct (classify char_signed comment c)).
    rewrite (token_class_not_NUL char_signed comment c Hcls).
    by rewrite IH.
Qed.

Lemma cstr_after_prefix (pre buf : list ascii) :
  cstr (pre ++ buf) (List.length pre) = cstr_of buf.
Proof. unfold cstr. by rewrite drop_app_length. Qed.

Lemma loop_join (ws : list string) (pre : list ascii) :
  Forall (fun w => w <> EmptyString /\ string_forall (fun c => is_token (classify char_signed comment c)) w = true) ws ->
  List.map
    (cstr (pre ++ fst (loop char_signed comment st_space (List.length pre)
                         (join_chars ws))))
    (snd (loop char_signed comment st_space (List.length pre) (join_chars ws)))
  = ws.
Proof.
  intros Hws. revert pre. induction Hws as [|w ws [Hne Hw] Hrest IH]; intros pre.
  - reflexivity.
  - cbn [join_chars].
    destruct ws as [|w2 ws].
    + destruct (loop_word (List.length pre) w [] Hne Hw) as (state & _ & ->).
      simpl. rewrite !app_nil_r, cstr_after_prefix.
      by rewrite <- (app_nil_r (list_ascii_of_string w)), cstr_of_word by auto.
    + destruct (loop_word (List.length pre) w
                  (space_char :: join_chars (w2 :: ws)) Hne Hw)
        as (state & Hstate & ->).
      cbn [loop fst snd]. rewrite classify_space.
      assert (transitions state sy_space = st_space) as ->
        by (destruct Hstate as [-> | ->]; reflexivity).
      cbn [is_token is_start].
      specialize (IH (pre ++ list_ascii_of_string w ++ [NUL])).
      rewrite !List.length_app, length_chars in IH.
      cbn [List.length] in IH.
      replace (S (List.length pre + String.length w))
        with (List.length pre + (String.length w + 1))%nat by lia.
      destruct (loop char_signed comment st_space
                  (List.length pre + (String.length w + 1)) (join_chars (w2 :: ws)))
        as [buf result].
      cbn [fst snd List.map] in *. f_equal.
      * rewrite cstr_after_prefix. apply cstr_of_word; eauto.
      * rewrite <- IH. rewrite <- !app_assoc. reflexivity.
Qed.

(** X17. Tokenizing undoes writing a command line out: for words that are
    non-empty and made of ordinary bytes, the tokens [str2argv] finds in
    the words joined by single spaces are exactly these words, in
    order. *)
Theorem str2argv_round_trip (ws : list string) :
  Forall (fun w => w <> EmptyString /\ string_forall (fun c => is_token (classify char_signed comment c)) w = true) ws ->
  List.map (cstr (fst (str2argv char_signed (join_chars ws) comment)))
    (snd (str2argv char_signed (join_chars ws) comment)) = ws.
Proof. intros Hws. exact (loop_join ws [] Hws). Qed.

End RoundTrip.

Lemma str2argv_round_trip_witness :
  Forall (fun w => w <> EmptyString /\
            string_forall
              (fun c => str2argv_h.is_token (str2argv_h.classify true "#" c)) w
            = true)
    ["run"; "--flag=1"; "x"] /\
  List.map
    (cstr (fst (str2argv_h.str2argv true (join_chars ["run"; "--flag=1"; "x"]) "#")))
    (snd (str2argv_h.str2argv true (join_chars ["run"; "--flag=1"; "x"]) "#"))
  = ["run"; "--flag=1"; "x"].
Proof.
  assert (Hws : Forall (fun w => w <> EmptyString /\
                  string_forall
                    (fun c => str2argv_h.is_token (str2argv_h.classify true "#" c)) w
                  = true) ["run"; "--flag=1"; "x"])
    by (repeat constructor; discriminate).
  split; [exact Hws|].
  apply (str2argv_round_trip true "#" ["run"; "--flag=1"; "x"] Hws).
Defined.
